(** * Bounded-buffer producer/consumer: the semaphore buffer, the socket
      server and its retrying clients

    Shallow embedding of [Socket Programming/buffer_server.py] (the socket
    server [SharedBufferServer] and the semaphore buffer [SharedBuffer]),
    [producer_client.py] and [consumer_client.py].

    Python integers are [Z].  The standard-library objects the code builds
    on ([queue.Queue], [threading.Semaphore], [threading.Lock]) are modelled
    by their documented behaviour; a call that would wait for another thread
    is made explicit: [Blocks] in the call-level functions, a disabled step
    in the thread-level machines. *)

From stdpp Require Import gmap strings list.
From Stdlib Require Import ZArith Lia.

Open Scope Z_scope.

(* ===================================================================== *)
(** * Part I: the model                                                   *)
(* ===================================================================== *)

(** What a call does when no other thread runs during it: it returns, or
    it waits for ever on something only another thread could provide. *)
Inductive outcome (A : Type) : Type :=
| Returns (a : A)
| Blocks.
Arguments Returns {A} a.
Arguments Blocks {A}.

(** Values as [json.loads] yields them; [JNull] is Python's [None]. *)
#[warnings="-register-all"]
Inductive json : Type :=
| JNull
| JBool (b : bool)
| JNum (z : Z)
| JStr (s : string)
| JArr (l : list json)
| JObj (d : gmap string json).

(** ** [queue.Queue] *)
Module Queue.

Record t (A : Type) : Type := mk { maxsize : Z; queue : list A }.
Arguments mk {A} maxsize queue.
Arguments maxsize {A} _.
Arguments queue {A} _.

(** [Queue(maxsize)]: a [maxsize] of zero or less makes the queue
    unbounded. *)
Definition __init__ {A} (maxsize : Z) : t A := mk maxsize [].

Definition qsize {A} (q : t A) : Z := Z.of_nat (length (queue q)).

(** [not self._qsize()] *)
Definition empty {A} (q : t A) : bool := qsize q =? 0.

(** [0 < self.maxsize <= self._qsize()] *)
Definition full {A} (q : t A) : bool :=
  (0 <? maxsize q) && (maxsize q <=? qsize q).

(** [put(item)] with the default [block=True, timeout=None]: waits while
    [maxsize > 0] and [qsize >= maxsize]; [None] is that wait. *)
Definition put {A} (q : t A) (item : A) : option (t A) :=
  if (0 <? maxsize q) && (maxsize q <=? qsize q) then None
  else Some (mk (maxsize q) (queue q ++ [item])).

(** [get()] with the default [block=True, timeout=None]: waits while the
    queue is empty; otherwise pops the left end. *)
Definition get {A} (q : t A) : option (A * t A) :=
  match queue q with
  | [] => None
  | item :: rest => Some (item, mk (maxsize q) rest)
  end.

End Queue.

(** ** [threading.Semaphore]

    A semaphore is its counter [_value]. *)
Module Semaphore.

(** [Semaphore(value)] raises [ValueError] for a negative [value]. *)
Definition __init__ (value : Z) : option Z :=
  if value <? 0 then None else Some value.

(** [acquire(timeout=...)]: takes a permit when the counter is not zero;
    with the counter at zero and nobody releasing, the wait times out and
    [acquire] returns [False] ([None] here). *)
Definition acquire (_value : Z) : option Z :=
  if _value =? 0 then None else Some (_value - 1).

Definition release (_value : Z) : Z := _value + 1.

End Semaphore.

(** ** [SharedBuffer]: the semaphore-guarded buffer *)
Module SharedBuffer.

(** The fields of [__init__].  [_lock] only brackets the two counter
    increments and [_stop_event] is never read, so neither is a field. *)
Record t : Type := mk {
  buffer : Queue.t Z;
  mutex : Z;
  empty : Z;
  full : Z;
  produced_count : Z;
  consumed_count : Z
}.

Definition __init__ (size : Z) : option t :=
  match Semaphore.__init__ 1, Semaphore.__init__ size, Semaphore.__init__ 0 with
  | Some m, Some e, Some f => Some (mk (Queue.__init__ size) m e f 0 0)
  | _, _, _ => None
  end.

(** [insert(item)], lines 376-408. *)
Definition insert (self : t) (item : Z) : outcome (t * bool) :=
  match Semaphore.acquire (empty self) with
  | None => Returns (self, false)
  | Some e =>
      match Semaphore.acquire (mutex self) with
      | None =>
          Returns (mk (buffer self) (mutex self) (Semaphore.release e) (full self)
                      (produced_count self) (consumed_count self), false)
      | Some m =>
          match Queue.put (buffer self) item with
          | None => Blocks
          | Some q =>
              Returns (mk q (Semaphore.release m) e (Semaphore.release (full self))
                          (produced_count self + 1) (consumed_count self), true)
          end
      end
  end.

(** [remove()], lines 410-442; [None] is the [None] the method returns. *)
Definition remove (self : t) : outcome (t * option Z) :=
  match Semaphore.acquire (full self) with
  | None => Returns (self, None)
  | Some f =>
      match Semaphore.acquire (mutex self) with
      | None =>
          Returns (mk (buffer self) (mutex self) (empty self) (Semaphore.release f)
                      (produced_count self) (consumed_count self), None)
      | Some m =>
          match Queue.get (buffer self) with
          | None => Blocks
          | Some (item, q) =>
              Returns (mk q (Semaphore.release m) (Semaphore.release (empty self)) f
                          (produced_count self) (consumed_count self + 1), Some item)
          end
      end
  end.

Definition get_size (self : t) : Z := Queue.qsize (buffer self).
Definition is_full (self : t) : bool := Queue.full (buffer self).
Definition is_empty (self : t) : bool := Queue.empty (buffer self).

(** A call a client thread makes, and what it got back. *)
Inductive call : Type := Insert (item : Z) | Remove.
Inductive result : Type := Inserted (ok : bool) | Removed (item : option Z).

Definition perform (self : t) (c : call) : outcome (t * result) :=
  match c with
  | Insert item =>
      match insert self item with
      | Returns (self', ok) => Returns (self', Inserted ok)
      | Blocks => Blocks
      end
  | Remove =>
      match remove self with
      | Returns (self', item) => Returns (self', Removed item)
      | Blocks => Blocks
      end
  end.

(** A sequence of calls, each completed before the next starts. *)
Fixpoint run (self : t) (calls : list call) : outcome (t * list result) :=
  match calls with
  | [] => Returns (self, [])
  | c :: calls' =>
      match perform self c with
      | Returns (self', r) =>
          match run self' calls' with
          | Returns (self'', rs) => Returns (self'', r :: rs)
          | Blocks => Blocks
          end
      | Blocks => Blocks
      end
  end.

End SharedBuffer.

(** ** Threads

    Several threads share one buffer object.  A thread is the place it has
    reached in its current call; the buffer is the one shared store every
    thread's statements act on.  [tally f threads] counts the threads by a
    0/1 weight [f] of their place. *)
Definition tally {P : Type} (f : P → Z) (threads : list P) : Z :=
  foldr (λ p acc, f p + acc) 0 threads.

(** ** [SharedBuffer], statement by statement

    One step of a thread is one statement of [insert] or [remove] that
    touches the shared buffer.  [Semaphore.acquire] is where a thread may
    wait: it proceeds when the counter is not zero, and may time out when it
    finds the counter at zero. *)
Module Local.
Import SharedBuffer.

Inductive pc : Type :=
| Idle
| Returned (r : result)
| Insert_empty (item : Z)          (* 382: self.empty.acquire(timeout) *)
| Insert_mutex (item : Z)          (* 388: self.mutex.acquire(timeout) *)
| Insert_giveup                    (* 390: self.empty.release(); return False *)
| Insert_put (item : Z)            (* 395: self.buffer.put(item) *)
| Insert_count                     (* 396-397: self.produced_count += 1 *)
| Insert_release_mutex             (* 403: self.mutex.release() *)
| Insert_release_full              (* 407: self.full.release(); return True *)
| Remove_full                      (* 416: self.full.acquire(timeout) *)
| Remove_mutex                     (* 422: self.mutex.acquire(timeout) *)
| Remove_giveup                    (* 424: self.full.release(); return None *)
| Remove_get                       (* 429: item = self.buffer.get() *)
| Remove_count (item : Z)          (* 430-431: self.consumed_count += 1 *)
| Remove_release_mutex (item : Z)  (* 437: self.mutex.release() *)
| Remove_release_empty (item : Z). (* 441: self.empty.release(); return item *)

(** What the scheduler lets a thread do next: enter a call, run the
    statement it is at, or have the [acquire] it is at time out. *)
Inductive action : Type := Start (c : call) | Proceed | Expire.

Definition set_buffer (self : t) (q : Queue.t Z) : t :=
  mk q (mutex self) (empty self) (full self) (produced_count self) (consumed_count self).
Definition set_mutex (self : t) (v : Z) : t :=
  mk (buffer self) v (empty self) (full self) (produced_count self) (consumed_count self).
Definition set_empty (self : t) (v : Z) : t :=
  mk (buffer self) (mutex self) v (full self) (produced_count self) (consumed_count self).
Definition set_full (self : t) (v : Z) : t :=
  mk (buffer self) (mutex self) (empty self) v (produced_count self) (consumed_count self).
Definition set_produced_count (self : t) (v : Z) : t :=
  mk (buffer self) (mutex self) (empty self) (full self) v (consumed_count self).
Definition set_consumed_count (self : t) (v : Z) : t :=
  mk (buffer self) (mutex self) (empty self) (full self) (produced_count self) v.

(** [None]: the action is not possible at this place in this state. *)
Definition step (a : action) (self : t) (at_ : pc) : option (t * pc) :=
  match a, at_ with
  | Start (Insert item), (Idle | Returned _) => Some (self, Insert_empty item)
  | Start Remove, (Idle | Returned _) => Some (self, Remove_full)
  (* insert *)
  | Proceed, Insert_empty item =>
      e ← Semaphore.acquire (empty self); Some (set_empty self e, Insert_mutex item)
  | Expire, Insert_empty item =>
      match Semaphore.acquire (empty self) with
      | None => Some (self, Returned (Inserted false))
      | Some _ => None
      end
  | Proceed, Insert_mutex item =>
      m ← Semaphore.acquire (mutex self); Some (set_mutex self m, Insert_put item)
  | Expire, Insert_mutex item =>
      match Semaphore.acquire (mutex self) with
      | None => Some (self, Insert_giveup)
      | Some _ => None
      end
  | Proceed, Insert_giveup =>
      Some (set_empty self (Semaphore.release (empty self)), Returned (Inserted false))
  | Proceed, Insert_put item =>
      q ← Queue.put (buffer self) item; Some (set_buffer self q, Insert_count)
  | Proceed, Insert_count =>
      Some (set_produced_count self (produced_count self + 1), Insert_release_mutex)
  | Proceed, Insert_release_mutex =>
      Some (set_mutex self (Semaphore.release (mutex self)), Insert_release_full)
  | Proceed, Insert_release_full =>
      Some (set_full self (Semaphore.release (full self)), Returned (Inserted true))
  (* remove *)
  | Proceed, Remove_full =>
      f ← Semaphore.acquire (full self); Some (set_full self f, Remove_mutex)
  | Expire, Remove_full =>
      match Semaphore.acquire (full self) with
      | None => Some (self, Returned (Removed None))
      | Some _ => None
      end
  | Proceed, Remove_mutex =>
      m ← Semaphore.acquire (mutex self); Some (set_mutex self m, Remove_get)
  | Expire, Remove_mutex =>
      match Semaphore.acquire (mutex self) with
      | None => Some (self, Remove_giveup)
      | Some _ => None
      end
  | Proceed, Remove_giveup =>
      Some (set_full self (Semaphore.release (full self)), Returned (Removed None))
  | Proceed, Remove_get =>
      '(item, q) ← Queue.get (buffer self); Some (set_buffer self q, Remove_count item)
  | Proceed, Remove_count item =>
      Some (set_consumed_count self (consumed_count self + 1), Remove_release_mutex item)
  | Proceed, Remove_release_mutex item =>
      Some (set_mutex self (Semaphore.release (mutex self)), Remove_release_empty item)
  | Proceed, Remove_release_empty item =>
      Some (set_empty self (Semaphore.release (empty self)), Returned (Removed (Some item)))
  | _, _ => None
  end.

Record system : Type := System { shared : t; threads : list pc }.

(** Thread [i] takes action [a]. *)
Definition fire (σ : system) (i : nat) (a : action) : option system :=
  at_ ← threads σ !! i;
  '(self', at') ← step a (shared σ) at_;
  Some (System self' (<[i := at']> (threads σ))).

(** A schedule: which thread moves, and how, one entry per step. *)
Fixpoint exec (σ : system) (schedule : list (nat * action)) : option system :=
  match schedule with
  | [] => Some σ
  | (i, a) :: schedule' => σ' ← fire σ i a; exec σ' schedule'
  end.

(** [SharedBuffer(size)] handed to [n] threads that have not called yet. *)
Definition boot (size : Z) (n : nat) : option system :=
  self ← __init__ size; Some (System self (replicate n Idle)).

(** Not inside a call. *)
Definition at_rest (at_ : pc) : Prop :=
  match at_ with Idle | Returned _ => True | _ => False end.

Definition quiescent (σ : system) : Prop := Forall at_rest (threads σ).

(** Permit bookkeeping by place.  A thread [holds_empty] between taking
    an empty-slot permit and either giving it back or putting its item;
    it [owes_full] from the put until it has signalled the filled slot.
    [holds_full] and [owes_empty] are the same for [remove]. *)
Definition holds_empty (at_ : pc) : Z :=
  match at_ with Insert_mutex _ | Insert_giveup | Insert_put _ => 1 | _ => 0 end.
Definition owes_full (at_ : pc) : Z :=
  match at_ with Insert_count | Insert_release_mutex | Insert_release_full => 1 | _ => 0 end.
Definition holds_full (at_ : pc) : Z :=
  match at_ with Remove_mutex | Remove_giveup | Remove_get => 1 | _ => 0 end.
Definition owes_empty (at_ : pc) : Z :=
  match at_ with
  | Remove_count _ | Remove_release_mutex _ | Remove_release_empty _ => 1
  | _ => 0
  end.

(** The permits a thread has taken and not yet returned or passed on. *)
Definition held (at_ : pc) : Z :=
  holds_empty at_ + owes_full at_ + holds_full at_ + owes_empty at_.

(** Between [mutex.acquire] and [mutex.release]. *)
Definition in_mutex (at_ : pc) : Z :=
  match at_ with
  | Insert_put _ | Insert_count | Insert_release_mutex
  | Remove_get | Remove_count _ | Remove_release_mutex _ => 1
  | _ => 0
  end.

(** Put or got, counter not yet bumped. *)
Definition uncounted_put (at_ : pc) : Z :=
  match at_ with Insert_count => 1 | _ => 0 end.
Definition uncounted_get (at_ : pc) : Z :=
  match at_ with Remove_count _ => 1 | _ => 0 end.

(** The schedule under which a lone thread performs one call. *)
Definition solo (self : t) (c : call) : list (nat * action) :=
  match c with
  | Insert _ =>
      match Semaphore.acquire (empty self) with
      | None => [(0%nat, Start c); (0%nat, Expire)]
      | Some _ =>
          match Semaphore.acquire (mutex self) with
          | None => [(0%nat, Start c); (0%nat, Proceed); (0%nat, Expire); (0%nat, Proceed)]
          | Some _ => (0%nat, Start c) :: replicate 6 (0%nat, Proceed)
          end
      end
  | Remove =>
      match Semaphore.acquire (full self) with
      | None => [(0%nat, Start c); (0%nat, Expire)]
      | Some _ =>
          match Semaphore.acquire (mutex self) with
          | None => [(0%nat, Start c); (0%nat, Proceed); (0%nat, Expire); (0%nat, Proceed)]
          | Some _ => (0%nat, Start c) :: replicate 6 (0%nat, Proceed)
          end
      end
  end.

End Local.

(** ** [SharedBufferServer]: the socket server *)
Module SharedBufferServer.

(** The fields of [__init__]; [lock] is [true] while a thread holds
    [self.lock]. *)
Record t : Type := mk {
  host : string;
  port : Z;
  buffer_size : Z;
  buffer : Queue.t json;
  lock : bool;
  producer_count : Z;
  consumer_count : Z
}.

Definition __init__ (host : string) (port : Z) (buffer_size : Z) : t :=
  mk host port buffer_size (Queue.__init__ buffer_size) false 0 0.

Definition set_buffer (self : t) (q : Queue.t json) : t :=
  mk (host self) (port self) (buffer_size self) q (lock self)
     (producer_count self) (consumer_count self).
Definition set_lock (self : t) (held : bool) : t :=
  mk (host self) (port self) (buffer_size self) (buffer self) held
     (producer_count self) (consumer_count self).

(** The double-quote character of the two f-string messages. *)
Definition dquote : string := String (Ascii.ascii_of_nat 34) EmptyString.

Section Handlers.
(** Python's own [str(item)], as an f-string renders a value, and
    [json.loads], [None] where it raises. *)
Variable str : json → string.
Variable loads : string → option json.

Definition buffer_full_response : gmap string json :=
  {[ "status" := JStr "error";
     "message" := JStr "Buffer is full. Try again later." ]}.

Definition produced_response (item : json) (size : Z) : gmap string json :=
  {[ "status" := JStr "success";
     "message" := JStr ("Item " +:+ dquote +:+ str item +:+ dquote +:+ " added to buffer");
     "buffer_size" := JNum size ]}.

Definition buffer_empty_response : gmap string json :=
  {[ "status" := JStr "error";
     "message" := JStr "Buffer is empty. No items to consume." ]}.

Definition consumed_response (item : json) (size : Z) : gmap string json :=
  {[ "status" := JStr "success";
     "item" := item;
     "message" := JStr ("Item " +:+ dquote +:+ str item +:+ dquote +:+ " consumed");
     "buffer_size" := JNum size ]}.

Definition invalid_response : gmap string json :=
  {[ "status" := JStr "error"; "message" := JStr "Invalid client type" ]}.

(** [request.get(key)]: [None] when the key is missing. *)
Definition get (request : gmap string json) (key : string) : json :=
  default JNull (request !! key).

(** [handle_producer], lines 59-82: the new server state and the
    response sent.  [with self.lock] waits while the lock is held. *)
Definition handle_producer (self : t) (request : gmap string json)
  : outcome (t * gmap string json) :=
  let item := get request "item" in
  if lock self then Blocks
  else if Queue.full (buffer self) then Returns (self, buffer_full_response)
  else match Queue.put (buffer self) item with
       | None => Blocks
       | Some q => Returns (set_buffer self q, produced_response item (Queue.qsize q))
       end.

(** [handle_consumer], lines 84-107. *)
Definition handle_consumer (self : t) (request : gmap string json)
  : outcome (t * gmap string json) :=
  if lock self then Blocks
  else if Queue.empty (buffer self) then Returns (self, buffer_empty_response)
  else match Queue.get (buffer self) with
       | None => Blocks
       | Some (item, q) => Returns (set_buffer self q, consumed_response item (Queue.qsize q))
       end.

(** [client_type == 'producer']: only a string equals a string. *)
Definition is_type (client_type : json) (name : string) : bool :=
  match client_type with
  | JStr s => String.eqb s name
  | _ => false
  end.

Definition sent {A} (o : outcome (t * A)) : outcome (t * option A) :=
  match o with
  | Returns (self', response) => Returns (self', Some response)
  | Blocks => Blocks
  end.

(** [handle_client], lines 35-57, from the decoded bytes on: the new
    state and what was sent before the socket was closed.  Nothing is
    sent for empty data, nor when [json.loads] or [request.get] raises
    (the [except] clause only logs). *)
Definition handle_client (self : t) (data : string)
  : outcome (t * option (gmap string json)) :=
  match data with
  | EmptyString => Returns (self, None)
  | _ =>
      match loads data with
      | Some (JObj request) =>
          let client_type := get request "type" in
          if is_type client_type "producer" then sent (handle_producer self request)
          else if is_type client_type "consumer" then sent (handle_consumer self request)
          else Returns (self, Some invalid_response)
      | _ => Returns (self, None)
      end
  end.

(** Connections served one after the other. *)
Fixpoint serve (self : t) (connections : list string)
  : outcome (t * list (option (gmap string json))) :=
  match connections with
  | [] => Returns (self, [])
  | data :: rest =>
      match handle_client self data with
      | Returns (self', reply) =>
          match serve self' rest with
          | Returns (self'', replies) => Returns (self'', reply :: replies)
          | Blocks => Blocks
          end
      | Blocks => Blocks
      end
  end.

End Handlers.

End SharedBufferServer.

(** ** [SharedBufferServer], statement by statement

    [start] gives every accepted connection its own thread running
    [handle_client]; all of them act on the one server object. *)
Module Net.
Import SharedBufferServer.

Inductive pc : Type :=
| Accepted (data : string)           (* 39-49: recv, json.loads, dispatch *)
| Producer_lock (item : json)        (* 66: with self.lock (acquire) *)
| Producer_check (item : json)       (* 67: if self.buffer.full() *)
| Producer_put (item : json)         (* 74: self.buffer.put(item) *)
| Producer_size (item : json)        (* 75-79: response with self.buffer.qsize() *)
| Consumer_lock                      (* 90: with self.lock (acquire) *)
| Consumer_check                     (* 91: if self.buffer.empty() *)
| Consumer_get                       (* 98: item = self.buffer.get() *)
| Consumer_size (item : json)        (* 99-104: response with self.buffer.qsize() *)
| Unlock (response : gmap string json)   (* end of the with block (release) *)
| Send (response : gmap string json)     (* 52, 82, 107: client_socket.send *)
| Closed (reply : option (gmap string json)).  (* 57: client_socket.close() *)

Section Steps.
Variable str : json → string.
Variable loads : string → option json.

(** The statement at [at_]; [None] when the thread must wait there (the
    lock is held, or the queue operation would wait) or has finished. *)
Definition step (self : t) (at_ : pc) : option (t * pc) :=
  match at_ with
  | Accepted data =>
      match data with
      | EmptyString => Some (self, Closed None)
      | _ =>
          match loads data with
          | Some (JObj request) =>
              let client_type := get request "type" in
              if is_type client_type "producer" then
                Some (self, Producer_lock (get request "item"))
              else if is_type client_type "consumer" then Some (self, Consumer_lock)
              else Some (self, Send invalid_response)
          | _ => Some (self, Closed None)
          end
      end
  | Producer_lock item =>
      if lock self then None else Some (set_lock self true, Producer_check item)
  | Producer_check item =>
      if Queue.full (buffer self) then Some (self, Unlock buffer_full_response)
      else Some (self, Producer_put item)
  | Producer_put item =>
      q ← Queue.put (buffer self) item; Some (set_buffer self q, Producer_size item)
  | Producer_size item =>
      Some (self, Unlock (produced_response str item (Queue.qsize (buffer self))))
  | Consumer_lock =>
      if lock self then None else Some (set_lock self true, Consumer_check)
  | Consumer_check =>
      if Queue.empty (buffer self) then Some (self, Unlock buffer_empty_response)
      else Some (self, Consumer_get)
  | Consumer_get =>
      '(item, q) ← Queue.get (buffer self); Some (set_buffer self q, Consumer_size item)
  | Consumer_size item =>
      Some (self, Unlock (consumed_response str item (Queue.qsize (buffer self))))
  | Unlock response => Some (set_lock self false, Send response)
  | Send response => Some (self, Closed (Some response))
  | Closed _ => None
  end.

Record system : Type := System { shared : t; threads : list pc }.

Definition fire (σ : system) (i : nat) : option system :=
  at_ ← threads σ !! i;
  '(self', at') ← step (shared σ) at_;
  Some (System self' (<[i := at']> (threads σ))).

(** A schedule names the thread that moves at each step. *)
Fixpoint exec (σ : system) (schedule : list nat) : option system :=
  match schedule with
  | [] => Some σ
  | i :: schedule' => σ' ← fire σ i; exec σ' schedule'
  end.

(** One thread per accepted connection. *)
Definition start (self : t) (connections : list string) : system :=
  System self (map Accepted connections).

Definition closed (at_ : pc) : Prop :=
  match at_ with Closed _ => True | _ => False end.

Definition all_closed (σ : system) : Prop := Forall closed (threads σ).

(** The bytes of a request whose [type] is ['producer']. *)
Definition produce_request (data : string) : Prop :=
  data ≠ EmptyString ∧
  ∃ request, loads data = Some (JObj request) ∧
             is_type (get request "type") "producer" = true.

End Steps.

Definition succeeded (response : gmap string json) : bool :=
  match response !! "status" with
  | Some (JStr s) => String.eqb s "success"
  | _ => false
  end.

(** Holding [self.lock]. *)
Definition in_lock (at_ : pc) : Z :=
  match at_ with
  | Producer_check _ | Producer_put _ | Producer_size _
  | Consumer_check | Consumer_get | Consumer_size _ | Unlock _ => 1
  | _ => 0
  end.

(** Statements still to run on the longest path to [Closed]. *)
Definition remaining (at_ : pc) : Z :=
  match at_ with
  | Accepted _ => 7
  | Producer_lock _ | Consumer_lock => 6
  | Producer_check _ | Consumer_check => 5
  | Producer_put _ | Consumer_get => 4
  | Producer_size _ | Consumer_size _ => 3
  | Unlock _ => 2
  | Send _ => 1
  | Closed _ => 0
  end.

End Net.

(** ** The remote clients

    A client opens one connection per operation.  [exchange] is that
    round trip (connect, send the request, receive and decode the reply)
    against whatever is on the other side, the [World]: [None] when any of
    it raises.  The [interval] argument only sets the length of a sleep and
    is left out; the [while] loops take fuel, one unit per iteration. *)
Definition is_success (status : json) : bool :=
  match status with
  | JStr s => String.eqb s "success"
  | _ => false
  end.

(** [item is None] *)
Definition is_None (item : json) : bool :=
  match item with JNull => true | _ => false end.

(** [producer_client.py] *)
Module producer_client.
Section Producer.
Variable World : Type.
Variable exchange : gmap string json → World → option json * World.
Variable producer_id : string.

(** [produce], lines 14-44.  Every exception (a reply that is no
    object, a missing key) ends in the [except] clause: [False]. *)
Definition produce (item : json) (w : World) : bool * World :=
  let request : gmap string json :=
    {[ "type" := JStr "producer"; "id" := JStr producer_id; "item" := item ]} in
  match exchange request w with
  | (Some (JObj response_data), w') =>
      match response_data !! "status" with
      | Some status => (is_success status, w')
      | None => (false, w')
      end
  | (_, w') => (false, w')
  end.

(** What [continuous_production] does that can be seen from outside. *)
Inductive event : Type :=
| Produce (item : json) (success : bool)   (* 55 *)
| Retrying (retries : Z)                   (* 59-60: message, random back-off *)
| Skipping (item : json)                   (* 62 *)
| Interval.                                (* 64 *)

(** The [while not success and retries < max_retries] loop of lines
    54-62, entered with the given [success] and [retries]. *)
Fixpoint retry_loop (fuel : nat) (item : json) (max_retries : Z)
    (success : bool) (retries : Z) (w : World)
  : option (list event * bool * World) :=
  if negb success && (retries <? max_retries) then
    match fuel with
    | O => None
    | S fuel' =>
        let '(success, w) := produce item w in
        if success then
          '(trace, success', w') ← retry_loop fuel' item max_retries success retries w;
          Some (Produce item true :: trace, success', w')
        else
          let retries := retries + 1 in
          if retries <? max_retries then
            '(trace, success', w') ← retry_loop fuel' item max_retries success retries w;
            Some (Produce item false :: Retrying retries :: trace, success', w')
          else
            '(trace, success', w') ← retry_loop fuel' item max_retries success retries w;
            Some (Produce item false :: Skipping item :: trace, success', w')
    end
  else Some ([], success, w).

(** [continuous_production], lines 46-64, for a given list [items]. *)
Fixpoint continuous_production (fuel : nat) (items : list json) (max_retries : Z)
    (w : World) : option (list event * World) :=
  match items with
  | [] => Some ([], w)
  | item :: items' =>
      '(trace, success, w) ← retry_loop fuel item max_retries false 0 w;
      '(trace', w) ← continuous_production fuel items' max_retries w;
      Some (trace ++ (if success : bool then [Interval] else []) ++ trace', w)
  end.

(** The items of the requests made, in order. *)
Definition attempts (trace : list event) : list json :=
  flat_map (λ e, match e with Produce item _ => [item] | _ => [] end) trace.

(** The items given up on, in order. *)
Definition skipped (trace : list event) : list json :=
  flat_map (λ e, match e with Skipping item => [item] | _ => [] end) trace.

End Producer.
End producer_client.

(** [consumer_client.py] *)
Module consumer_client.
Section Consumer.
Variable World : Type.
Variable exchange : gmap string json → World → option json * World.
Variable consumer_id : string.

(** [consume], lines 14-44: the item, or [None] ([JNull]). *)
Definition consume (w : World) : json * World :=
  let request : gmap string json :=
    {[ "type" := JStr "consumer"; "id" := JStr consumer_id ]} in
  match exchange request w with
  | (Some (JObj response_data), w') =>
      match response_data !! "status" with
      | Some status =>
          if is_success status then (default JNull (response_data !! "item"), w')
          else (JNull, w')
      | None => (JNull, w')
      end
  | (_, w') => (JNull, w')
  end.

Inductive event : Type :=
| Consume (item : json)        (* 54 *)
| Retrying (retries : Z)       (* 58-59: message, random back-off *)
| Stopping                     (* 61-62: message, return *)
| Consumed (items_consumed : Z)  (* 64-66 *)
| Waiting.                     (* 68-69 *)

(** How the inner loop is left: by its [return], or by its condition
    with the last [item]. *)
Inductive leave : Type := Return | Fallthrough (item : json).

(** The [while item is None and retries < max_retries] loop of lines
    53-62. *)
Fixpoint retry_loop (fuel : nat) (max_retries : Z) (item : json) (retries : Z)
    (w : World) : option (list event * leave * World) :=
  if is_None item && (retries <? max_retries) then
    match fuel with
    | O => None
    | S fuel' =>
        let '(item, w) := consume w in
        if is_None item then
          let retries := retries + 1 in
          if retries <? max_retries then
            '(trace, how, w') ← retry_loop fuel' max_retries item retries w;
            Some (Consume item :: Retrying retries :: trace, how, w')
          else Some ([Consume item; Stopping], Return, w)
        else
          '(trace, how, w') ← retry_loop fuel' max_retries item retries w;
          Some (Consume item :: trace, how, w')
    end
  else Some ([], Fallthrough item, w).

(** The [while items_consumed < max_items] loop of lines 50-69; the
    result carries the final [items_consumed]. *)
Fixpoint consumption_loop (fuel : nat) (max_items max_retries : Z)
    (items_consumed : Z) (w : World) : option (list event * Z * World) :=
  if items_consumed <? max_items then
    match fuel with
    | O => None
    | S fuel' =>
        '(trace, how, w) ← retry_loop fuel max_retries JNull 0 w;
        match how with
        | Return => Some (trace, items_consumed, w)
        | Fallthrough item =>
            if is_None item then
              '(trace', n, w') ← consumption_loop fuel' max_items max_retries items_consumed w;
              Some (trace ++ Waiting :: trace', n, w')
            else
              let items_consumed := items_consumed + 1 in
              '(trace', n, w') ← consumption_loop fuel' max_items max_retries items_consumed w;
              Some (trace ++ Consumed items_consumed :: trace', n, w')
        end
    end
  else Some ([], items_consumed, w).

(** [continuous_consumption], lines 46-69. *)
Definition continuous_consumption (fuel : nat) (max_items max_retries : Z) (w : World)
  : option (list event * Z * World) :=
  consumption_loop fuel max_items max_retries 0 w.

(** What the requests made returned, in order. *)
Definition attempts (trace : list event) : list json :=
  flat_map (λ e, match e with Consume item => [item] | _ => [] end) trace.

End Consumer.
End consumer_client.

(** ** Vocabulary of the properties *)

(** A [SharedBuffer(size)] between calls: the mutex is free, the two slot
    semaphores mirror the queue, the counters differ by its length. *)
Definition settled (size : Z) (self : SharedBuffer.t) : Prop :=
  Queue.maxsize (SharedBuffer.buffer self) = size ∧
  SharedBuffer.mutex self = 1 ∧
  0 ≤ SharedBuffer.empty self ∧
  0 ≤ SharedBuffer.consumed_count self ∧
  SharedBuffer.empty self + SharedBuffer.get_size self = size ∧
  SharedBuffer.full self = SharedBuffer.get_size self ∧
  SharedBuffer.produced_count self - SharedBuffer.consumed_count self
    = SharedBuffer.get_size self.

(** What every reachable state of the threaded [SharedBuffer(size)]
    satisfies, permits and items in flight included. *)
Definition local_invariant (size : Z) (σ : Local.system) : Prop :=
  let self := Local.shared σ in
  let threads := Local.threads σ in
  Queue.maxsize (SharedBuffer.buffer self) = size ∧
  (0 ≤ SharedBuffer.empty self ∧ 0 ≤ SharedBuffer.full self ∧
   0 ≤ SharedBuffer.mutex self ∧ 0 ≤ SharedBuffer.consumed_count self) ∧
  SharedBuffer.get_size self + SharedBuffer.empty self
    + tally Local.holds_empty threads + tally Local.owes_empty threads = size ∧
  SharedBuffer.get_size self
    = SharedBuffer.full self + tally Local.holds_full threads + tally Local.owes_full threads ∧
  SharedBuffer.mutex self + tally Local.in_mutex threads = 1 ∧
  SharedBuffer.get_size self + SharedBuffer.consumed_count self
    + tally Local.uncounted_get threads
    = SharedBuffer.produced_count self + tally Local.uncounted_put threads.

(** [n] consumer requests handled one after the other; the responses in
    order. *)
Fixpoint consume_times (str : json → string) (self : SharedBufferServer.t)
    (request : gmap string json) (n : nat)
  : outcome (SharedBufferServer.t * list (gmap string json)) :=
  match n with
  | O => Returns (self, [])
  | S n' =>
      match SharedBufferServer.handle_consumer str self request with
      | Returns (self', response) =>
          match consume_times str self' request n' with
          | Returns (self'', responses) => Returns (self'', response :: responses)
          | Blocks => Blocks
          end
      | Blocks => Blocks
      end
  end.

(** A [SharedBufferServer(buffer_size=capacity)] between requests. *)
Definition serving (capacity : Z) (self : SharedBufferServer.t) : Prop :=
  Queue.maxsize (SharedBufferServer.buffer self) = capacity ∧
  SharedBufferServer.lock self = false ∧
  Queue.qsize (SharedBufferServer.buffer self) ≤ capacity.

(** What every reachable state of the threaded server of capacity
    [capacity] satisfies: the lock has at most one holder, a thread about
    to [put] or [get] found room or an item and still has it, and a
    positive capacity bounds the queue. *)
Definition net_invariant (capacity : Z) (σ : Net.system) : Prop :=
  let self := Net.shared σ in
  let threads := Net.threads σ in
  Queue.maxsize (SharedBufferServer.buffer self) = capacity ∧
  tally Net.in_lock threads = (if SharedBufferServer.lock self then 1 else 0) ∧
  (1 ≤ capacity → Queue.qsize (SharedBufferServer.buffer self) ≤ capacity) ∧
  (∀ i item, threads !! i = Some (Net.Producer_put item) →
             Queue.full (SharedBufferServer.buffer self) = false) ∧
  (∀ i, threads !! i = Some Net.Consumer_get →
        Queue.empty (SharedBufferServer.buffer self) = false).

(** For a server that only ever received produce requests, with room for
    all of them: every thread is on the path of a successful produce, and
    the queue holds one item per thread that is past its [put]. *)
Definition stored (at_ : Net.pc) : Z :=
  match at_ with
  | Net.Producer_size _ | Net.Unlock _ | Net.Send _ | Net.Closed _ => 1
  | _ => 0
  end.

Definition producing (loads : string → option json) (at_ : Net.pc) : Prop :=
  match at_ with
  | Net.Accepted data => Net.produce_request loads data
  | Net.Producer_lock _ | Net.Producer_check _ | Net.Producer_put _
  | Net.Producer_size _ => True
  | Net.Unlock response | Net.Send response | Net.Closed (Some response) =>
      Net.succeeded response = true
  | _ => False
  end.

Definition producers_invariant (loads : string → option json) (σ : Net.system) : Prop :=
  Forall (producing loads) (Net.threads σ) ∧
  Queue.qsize (SharedBufferServer.buffer (Net.shared σ)) = tally stored (Net.threads σ) ∧
  Z.of_nat (length (Net.threads σ)) ≤ Queue.maxsize (SharedBufferServer.buffer (Net.shared σ)).

(** The items of the [insert] calls that returned [True], and the items
    the [remove] calls returned, each in call order. *)
Fixpoint accepted (calls : list SharedBuffer.call) (results : list SharedBuffer.result)
  : list Z :=
  match calls, results with
  | SharedBuffer.Insert item :: calls', SharedBuffer.Inserted true :: results' =>
      item :: accepted calls' results'
  | _ :: calls', _ :: results' => accepted calls' results'
  | _, _ => []
  end.

Definition delivered (results : list SharedBuffer.result) : list Z :=
  flat_map (λ r, match r with SharedBuffer.Removed (Some item) => [item] | _ => [] end)
           results.

(** What a call returns when it times out. *)
Definition timed_out (c : SharedBuffer.call) : SharedBuffer.result :=
  match c with
  | SharedBuffer.Insert _ => SharedBuffer.Inserted false
  | SharedBuffer.Remove => SharedBuffer.Removed None
  end.

(** [SharedBufferServer.get_buffer_status], lines 109-117: the status
    dictionary, read under [self.lock]. *)
Definition get_buffer_status (self : SharedBufferServer.t) : outcome (gmap string json) :=
  if SharedBufferServer.lock self then Blocks
  else Returns {[ "size" := JNum (Queue.qsize (SharedBufferServer.buffer self));
                  "max_size" := JNum (SharedBufferServer.buffer_size self);
                  "is_full" := JBool (Queue.full (SharedBufferServer.buffer self));
                  "is_empty" := JBool (Queue.empty (SharedBufferServer.buffer self)) ]}.

(** A reply that carries an item is the reply to a consume. *)
Definition carries_item (response : gmap string json) : bool :=
  match response !! "item" with Some _ => true | None => false end.

(** Threads whose produce has put its item, and threads whose consume has
    got one: by place and, once the response is built, by the response. *)
Definition has_put (at_ : Net.pc) : Z :=
  match at_ with
  | Net.Producer_size _ => 1
  | Net.Unlock response | Net.Send response | Net.Closed (Some response) =>
      if Net.succeeded response && negb (carries_item response) then 1 else 0
  | _ => 0
  end.

Definition has_got (at_ : Net.pc) : Z :=
  match at_ with
  | Net.Consumer_size _ => 1
  | Net.Unlock response | Net.Send response | Net.Closed (Some response) =>
      if Net.succeeded response && carries_item response then 1 else 0
  | _ => 0
  end.

(** In every reachable state of the threaded server that started with an
    empty queue, the queue holds one item per produce that has put and not
    per consume that has got. *)
Definition traffic_invariant (σ : Net.system) : Prop :=
  Queue.qsize (SharedBufferServer.buffer (Net.shared σ))
  = tally has_put (Net.threads σ) - tally has_got (Net.threads σ).

(** The items among what the consumer's requests returned: those that are
    not [None]. *)
Definition received (results : list json) : list json :=
  flat_map (λ item, if is_None item then [] else [item]) results.

(** ** The worker threads of the semaphore buffer

    [Producer] and [Consumer] of the second part of [buffer_server.py],
    each run with no other thread moving.  Writing and reading the
    students' XML files is the [World]: [save] is lines 481-488 of
    [_generate_and_save_student] and [process] is [_process_student], each
    [true] when it ran without raising.  The sleeps between rounds are left
    out; the [while] loops take fuel, and [None] is fuel running out. *)
Module Workers.
Section Workers.
Variable World : Type.
Variable save : Z → World → bool * World.
Variable process : Z → World → bool * World.
(** [CONFIG['MAX_STUDENTS']] *)
Variable MAX_STUDENTS : Z.

(** [Producer._generate_and_save_student], lines 477-494. *)
Definition _generate_and_save_student (buffer : SharedBuffer.t) (student_num : Z) (w : World)
  : outcome (SharedBuffer.t * bool * World) :=
  let '(saved, w) := save student_num w in
  if saved then
    match SharedBuffer.insert buffer student_num with
    | Returns (buffer', ok) => Returns (buffer', ok, w)
    | Blocks => Blocks
    end
  else Returns (buffer, false, w).

(** The loop of [Producer.run], lines 501-511, entered with the given
    [student_num]; the result carries the final [student_num]. *)
Fixpoint producer_loop (fuel : nat) (running : bool) (buffer : SharedBuffer.t)
    (student_num : Z) (w : World) : option (outcome (SharedBuffer.t * Z * World)) :=
  if running && (student_num <=? MAX_STUDENTS) then
    match fuel with
    | O => None
    | S fuel' =>
        match _generate_and_save_student buffer student_num w with
        | Returns (buffer', true, w') =>
            producer_loop fuel' running buffer' (student_num + 1) w'
        | Returns (buffer', false, w') => Some (Returns (buffer', student_num, w'))
        | Blocks => Some Blocks
        end
    end
  else Some (Returns (buffer, student_num, w)).

(** [Producer.run], lines 496-513. *)
Definition producer_run (fuel : nat) (running : bool) (buffer : SharedBuffer.t) (w : World)
  : option (outcome (SharedBuffer.t * Z * World)) :=
  producer_loop fuel running buffer 1 w.

(** [Consumer.run], lines 549-575; the result carries the student numbers
    handed to [_process_student], in order. *)
Fixpoint consumer_run (fuel : nat) (running : bool) (buffer : SharedBuffer.t) (w : World)
  : option (outcome (SharedBuffer.t * list Z * World)) :=
  if running then
    match fuel with
    | O => None
    | S fuel' =>
        match SharedBuffer.remove buffer with
        | Returns (buffer', Some student_num) =>
            let '(_, w') := process student_num w in
            if MAX_STUDENTS <=? SharedBuffer.consumed_count buffer' then
              Some (Returns (buffer', [student_num], w'))
            else
              match consumer_run fuel' running buffer' w' with
              | Some (Returns (buffer'', processed, w'')) =>
                  Some (Returns (buffer'', student_num :: processed, w''))
              | other => other
              end
        | Returns (buffer', None) => Some (Returns (buffer', [], w))
        | Blocks => Some Blocks
        end
    end
  else Some (Returns (buffer, [], w)).

End Workers.

(** [CONFIG], lines 137-146: the two sizes. *)
Definition BUFFER_SIZE : Z := 10.
Definition MAX_STUDENTS : Z := 10.

End Workers.

(** The world after the producer has saved the students [1] to [n] in
    turn, starting in [w]. *)
Definition saved_students {World : Type} (save : Z → World → bool * World) (n : Z)
    (w : World) : World :=
  foldl (λ w student_num, (save student_num w).2) w (seqZ 1 n).

(* ===================================================================== *)
(** * Part II: properties                                                 *)
(* ===================================================================== *)

(** ** Queue and semaphore facts *)

Lemma qsize_nonneg {A} (q : Queue.t A) : 0 ≤ Queue.qsize q.
Proof. unfold Queue.qsize. lia. Qed.

Lemma put_Some {A} (q q' : Queue.t A) item :
  Queue.put q item = Some q' →
  Queue.full q = false ∧ q' = Queue.mk (Queue.maxsize q) (Queue.queue q ++ [item]) ∧
  Queue.qsize q' = Queue.qsize q + 1.
Proof.
  unfold Queue.put, Queue.full.
  destruct ((0 <? Queue.maxsize q) && (Queue.maxsize q <=? Queue.qsize q)) eqn:E; [done|].
  intros [= <-]. split_and!; [done..|].
  unfold Queue.qsize. simpl. rewrite length_app. simpl. lia.
Qed.

Lemma put_not_full {A} (q : Queue.t A) item :
  Queue.full q = false →
  Queue.put q item = Some (Queue.mk (Queue.maxsize q) (Queue.queue q ++ [item])).
Proof. unfold Queue.put, Queue.full. by intros ->. Qed.

Lemma full_false_iff {A} (q : Queue.t A) :
  Queue.full q = false ↔ (Queue.maxsize q ≤ 0 ∨ Queue.qsize q < Queue.maxsize q).
Proof. unfold Queue.full. rewrite andb_false_iff, Z.ltb_ge, Z.leb_gt. tauto. Qed.

Lemma get_Some {A} (q q' : Queue.t A) item :
  Queue.get q = Some (item, q') →
  Queue.queue q = item :: Queue.queue q' ∧ Queue.maxsize q' = Queue.maxsize q ∧
  Queue.qsize q = Queue.qsize q' + 1.
Proof.
  unfold Queue.get, Queue.qsize. destruct (Queue.queue q) as [|x rest] eqn:E; [done|].
  intros [= <- <-]. simpl. split_and!; [done..|lia].
Qed.

Lemma get_None {A} (q : Queue.t A) : Queue.get q = None ↔ Queue.qsize q = 0.
Proof.
  unfold Queue.get, Queue.qsize. destruct (Queue.queue q); simpl; split; (done || lia).
Qed.

Lemma empty_true_iff {A} (q : Queue.t A) : Queue.empty q = true ↔ Queue.queue q = [].
Proof.
  unfold Queue.empty, Queue.qsize. rewrite Z.eqb_eq.
  destruct (Queue.queue q); simpl; split; (done || lia).
Qed.

Lemma acquire_None v : Semaphore.acquire v = None ↔ v = 0.
Proof. unfold Semaphore.acquire. destruct (Z.eqb_spec v 0); split; (done || lia). Qed.

Lemma acquire_Some v v' : Semaphore.acquire v = Some v' ↔ v ≠ 0 ∧ v' = v - 1.
Proof.
  unfold Semaphore.acquire. destruct (Z.eqb_spec v 0); split.
  - done.
  - intros [? _]. lia.
  - intros [= <-]. done.
  - intros [_ ->]. done.
Qed.

Lemma init_Some size self :
  SharedBuffer.__init__ size = Some self ↔
  0 ≤ size ∧ self = SharedBuffer.mk (Queue.mk size []) 1 size 0 0 0.
Proof.
  unfold SharedBuffer.__init__, Semaphore.__init__, Queue.__init__. simpl.
  destruct (Z.ltb_spec size 0); split.
  - done.
  - intros [? _]. lia.
  - intros [= <-]. done.
  - intros [_ ->]. done.
Qed.

(** ** [SharedBuffer]: one call at a time *)

Lemma insert_false self item self' :
  SharedBuffer.insert self item = Returns (self', false) → self' = self.
Proof.
  unfold SharedBuffer.insert.
  destruct (Semaphore.acquire (SharedBuffer.empty self)) as [e|] eqn:He.
  - apply acquire_Some in He as [_ ->].
    destruct (Semaphore.acquire (SharedBuffer.mutex self)) as [m|].
    + destruct (Queue.put _ _); [|done]. intros [=].
    + intros [= <-]. destruct self; unfold Semaphore.release; simpl. f_equal. lia.
  - by intros [= <-].
Qed.

Lemma insert_true self item self' :
  SharedBuffer.insert self item = Returns (self', true) →
  SharedBuffer.empty self ≠ 0 ∧ SharedBuffer.mutex self ≠ 0 ∧
  Queue.full (SharedBuffer.buffer self) = false ∧
  self' = SharedBuffer.mk
            (Queue.mk (Queue.maxsize (SharedBuffer.buffer self))
                      (Queue.queue (SharedBuffer.buffer self) ++ [item]))
            (SharedBuffer.mutex self) (SharedBuffer.empty self - 1)
            (SharedBuffer.full self + 1)
            (SharedBuffer.produced_count self + 1) (SharedBuffer.consumed_count self).
Proof.
  unfold SharedBuffer.insert.
  destruct (Semaphore.acquire (SharedBuffer.empty self)) as [e|] eqn:He; [|done].
  apply acquire_Some in He as [? ->].
  destruct (Semaphore.acquire (SharedBuffer.mutex self)) as [m|] eqn:Hm; [|done].
  apply acquire_Some in Hm as [? ->].
  destruct (Queue.put _ _) as [q|] eqn:Hq; [|done].
  apply put_Some in Hq as (? & -> & _).
  intros [= <-]. split_and!; [done..|]. unfold Semaphore.release. f_equal. lia.
Qed.

Lemma remove_None self self' :
  SharedBuffer.remove self = Returns (self', None) → self' = self.
Proof.
  unfold SharedBuffer.remove.
  destruct (Semaphore.acquire (SharedBuffer.full self)) as [f|] eqn:Hf.
  - apply acquire_Some in Hf as [_ ->].
    destruct (Semaphore.acquire (SharedBuffer.mutex self)) as [m|].
    + destruct (Queue.get _) as [[??]|]; [|done]. intros [=].
    + intros [= <-]. destruct self; unfold Semaphore.release; simpl. f_equal. lia.
  - by intros [= <-].
Qed.

Lemma remove_Some self item self' :
  SharedBuffer.remove self = Returns (self', Some item) →
  ∃ rest,
    SharedBuffer.full self ≠ 0 ∧ SharedBuffer.mutex self ≠ 0 ∧
    Queue.queue (SharedBuffer.buffer self) = item :: rest ∧
    self' = SharedBuffer.mk
              (Queue.mk (Queue.maxsize (SharedBuffer.buffer self)) rest)
              (SharedBuffer.mutex self) (SharedBuffer.empty self + 1)
              (SharedBuffer.full self - 1)
              (SharedBuffer.produced_count self) (SharedBuffer.consumed_count self + 1).
Proof.
  unfold SharedBuffer.remove.
  destruct (Semaphore.acquire (SharedBuffer.full self)) as [f|] eqn:Hf; [|done].
  apply acquire_Some in Hf as [? ->].
  destruct (Semaphore.acquire (SharedBuffer.mutex self)) as [m|] eqn:Hm; [|done].
  apply acquire_Some in Hm as [? ->].
  destruct (Queue.get _) as [[x q]|] eqn:Hq; [|done].
  unfold Queue.get in Hq. destruct (Queue.queue _) as [|y rest] eqn:E; [done|].
  injection Hq as <- <-.
  intros [= <- <-]. exists rest. split_and!; [done..|]. unfold Semaphore.release. f_equal. lia.
Qed.

Lemma init_settled size self : SharedBuffer.__init__ size = Some self → settled size self.
Proof.
  intros [? ->]%init_Some. unfold settled, SharedBuffer.get_size, Queue.qsize. simpl. lia.
Qed.

(** Between calls a call never waits for ever, and leaves the buffer
    settled again. *)
Lemma perform_settled size self c :
  settled size self →
  ∃ self' r, SharedBuffer.perform self c = Returns (self', r) ∧ settled size self'.
Proof.
  intros (Hmax & Hmutex & He & Hc & Hsum & Hfull & Hcount).
  unfold SharedBuffer.get_size in *.
  destruct c as [item|]; simpl.
  - unfold SharedBuffer.insert.
    destruct (Semaphore.acquire (SharedBuffer.empty self)) as [e|] eqn:Hacq.
    + apply acquire_Some in Hacq as [Hne ->]. rewrite Hmutex. simpl.
      rewrite put_not_full by (apply full_false_iff; lia).
      eexists _, _. split; [done|].
      unfold settled, SharedBuffer.get_size, Queue.qsize, Semaphore.release in *. simpl.
      rewrite length_app. simpl. lia.
    + eexists _, _. split; [done|]. unfold settled, SharedBuffer.get_size. done.
  - unfold SharedBuffer.remove.
    destruct (Semaphore.acquire (SharedBuffer.full self)) as [f|] eqn:Hacq.
    + apply acquire_Some in Hacq as [Hne ->]. rewrite Hmutex. simpl.
      unfold Queue.get. destruct (Queue.queue (SharedBuffer.buffer self)) as [|x rest] eqn:E.
      { unfold Queue.qsize in Hfull. rewrite E in Hfull. simpl in Hfull. lia. }
      eexists _, _. split; [done|].
      unfold settled, SharedBuffer.get_size, Queue.qsize, Semaphore.release in *. simpl.
      rewrite E in *. simpl in *. lia.
    + eexists _, _. split; [done|]. unfold settled, SharedBuffer.get_size. done.
Qed.

Lemma run_settled size self calls :
  settled size self →
  ∃ self' rs, SharedBuffer.run self calls = Returns (self', rs) ∧ settled size self'.
Proof.
  revert self. induction calls as [|c calls IH]; intros self Hs; simpl.
  - eauto.
  - destruct (perform_settled size self c Hs) as (self1 & r & -> & Hs1).
    destruct (IH self1 Hs1) as (self2 & rs & -> & Hs2). eauto.
Qed.

(** C2 (timeout atomicity): when [insert] times out at the empty-slot gate
    or at the mutex gate it returns [False], when [remove] times out at the
    filled-slot gate or at the mutex gate it returns [None], and the buffer
    object is then exactly as before the call: contents, both counters and
    both permit counts, so the permit taken before a failing mutex gate has
    been released.  Conversely a [False] or [None] result always comes with
    an unchanged buffer object. *)
Theorem timeout_atomicity (self : SharedBuffer.t) (item : Z) :
  (Semaphore.acquire (SharedBuffer.empty self) = None →
   SharedBuffer.insert self item = Returns (self, false)) ∧
  (Semaphore.acquire (SharedBuffer.empty self) ≠ None →
   Semaphore.acquire (SharedBuffer.mutex self) = None →
   SharedBuffer.insert self item = Returns (self, false)) ∧
  (Semaphore.acquire (SharedBuffer.full self) = None →
   SharedBuffer.remove self = Returns (self, None)) ∧
  (Semaphore.acquire (SharedBuffer.full self) ≠ None →
   Semaphore.acquire (SharedBuffer.mutex self) = None →
   SharedBuffer.remove self = Returns (self, None)) ∧
  (∀ self', SharedBuffer.insert self item = Returns (self', false) → self' = self) ∧
  (∀ self', SharedBuffer.remove self = Returns (self', None) → self' = self).
Proof.
  split_and!.
  - unfold SharedBuffer.insert. by intros ->.
  - intros He Hm. unfold SharedBuffer.insert.
    destruct (Semaphore.acquire (SharedBuffer.empty self)) as [e|] eqn:E; [|done].
    rewrite Hm. apply acquire_Some in E as [_ ->].
    destruct self; unfold Semaphore.release; simpl. do 3 f_equal. lia.
  - unfold SharedBuffer.remove. by intros ->.
  - intros Hf Hm. unfold SharedBuffer.remove.
    destruct (Semaphore.acquire (SharedBuffer.full self)) as [f|] eqn:E; [|done].
    rewrite Hm. apply acquire_Some in E as [_ ->].
    destruct self; unfold Semaphore.release; simpl. do 3 f_equal. lia.
  - apply insert_false.
  - apply remove_None.
Qed.

(** A buffer whose mutex another thread holds and whose slots are all
    free: [insert] gets its slot permit, fails at the mutex, gives the
    permit back. *)
Lemma timeout_atomicity_witness :
  let self := SharedBuffer.mk (Queue.mk 2 [5]) 0 1 1 1 0 in
  SharedBuffer.insert self 7 = Returns (self, false) ∧
  SharedBuffer.remove self = Returns (self, None).
Proof.
  intros self.
  destruct (timeout_atomicity self 7) as (_ & Hi & _ & Hr & _).
  split; [apply Hi | apply Hr]; vm_compute; congruence.
Defined.

Lemma run_cons self c calls self' r rs :
  SharedBuffer.run self (c :: calls) = Returns (self', r :: rs) →
  ∃ self1, SharedBuffer.perform self c = Returns (self1, r) ∧
           SharedBuffer.run self1 calls = Returns (self', rs).
Proof.
  simpl. destruct (SharedBuffer.perform self c) as [[self1 r1]|]; [|done].
  destruct (SharedBuffer.run self1 calls) as [[self2 rs2]|] eqn:Hrun; [|done].
  intros [= <- <- <-]. eauto.
Qed.

Lemma perform_insert self item self' ok :
  SharedBuffer.perform self (SharedBuffer.Insert item)
    = Returns (self', SharedBuffer.Inserted ok) →
  SharedBuffer.insert self item = Returns (self', ok).
Proof.
  simpl. destruct (SharedBuffer.insert self item) as [[??]|]; [|done]. by intros [= <- <-].
Qed.

Lemma perform_remove self self' item :
  SharedBuffer.perform self SharedBuffer.Remove
    = Returns (self', SharedBuffer.Removed item) →
  SharedBuffer.remove self = Returns (self', item).
Proof.
  simpl. destruct (SharedBuffer.remove self) as [[??]|]; [|done]. by intros [= <- <-].
Qed.

Lemma insert_ok q m e f p c item :
  e ≠ 0 → m ≠ 0 → Queue.full q = false →
  SharedBuffer.insert (SharedBuffer.mk q m e f p c) item
  = Returns (SharedBuffer.mk (Queue.mk (Queue.maxsize q) (Queue.queue q ++ [item]))
                             (m - 1 + 1) (e - 1) (f + 1) (p + 1) c, true).
Proof.
  intros He Hm Hq. unfold SharedBuffer.insert. simpl.
  destruct (Semaphore.acquire e) as [e'|] eqn:E; [|by apply acquire_None in E].
  apply acquire_Some in E as [_ ->].
  destruct (Semaphore.acquire m) as [m'|] eqn:M; [|by apply acquire_None in M].
  apply acquire_Some in M as [_ ->].
  by rewrite put_not_full.
Qed.

Lemma remove_ok maxsize item rest m e f p c :
  f ≠ 0 → m ≠ 0 →
  SharedBuffer.remove (SharedBuffer.mk (Queue.mk maxsize (item :: rest)) m e f p c)
  = Returns (SharedBuffer.mk (Queue.mk maxsize rest) (m - 1 + 1) (e + 1) (f - 1) p (c + 1),
             Some item).
Proof.
  intros Hf Hm. unfold SharedBuffer.remove. simpl.
  destruct (Semaphore.acquire f) as [f'|] eqn:F; [|by apply acquire_None in F].
  apply acquire_Some in F as [_ ->].
  destruct (Semaphore.acquire m) as [m'|] eqn:M; [|by apply acquire_None in M].
  by apply acquire_Some in M as [_ ->].
Qed.

(** C4 (FIFO order): on a buffer whose queue is empty, three successful
    inserts of 1, 2, 3 followed by three successful removes return 1, 2, 3
    in that order; on a buffer built with room for three, those six calls
    do all succeed; and in any state a successful [insert] appends at the
    back while a successful [remove] returns and drops the item at the
    front, the oldest one. *)
Theorem fifo_order :
  (∀ self self' a b c,
     Queue.queue (SharedBuffer.buffer self) = [] →
     SharedBuffer.run self
       [SharedBuffer.Insert 1; SharedBuffer.Insert 2; SharedBuffer.Insert 3;
        SharedBuffer.Remove; SharedBuffer.Remove; SharedBuffer.Remove]
     = Returns (self', [SharedBuffer.Inserted true; SharedBuffer.Inserted true;
                        SharedBuffer.Inserted true; SharedBuffer.Removed (Some a);
                        SharedBuffer.Removed (Some b); SharedBuffer.Removed (Some c)]) →
     a = 1 ∧ b = 2 ∧ c = 3) ∧
  (∀ size self,
     3 ≤ size → SharedBuffer.__init__ size = Some self →
     ∃ self',
       SharedBuffer.run self
         [SharedBuffer.Insert 1; SharedBuffer.Insert 2; SharedBuffer.Insert 3;
          SharedBuffer.Remove; SharedBuffer.Remove; SharedBuffer.Remove]
       = Returns (self', [SharedBuffer.Inserted true; SharedBuffer.Inserted true;
                          SharedBuffer.Inserted true; SharedBuffer.Removed (Some 1);
                          SharedBuffer.Removed (Some 2); SharedBuffer.Removed (Some 3)])) ∧
  (∀ self self' item,
     SharedBuffer.insert self item = Returns (self', true) →
     Queue.queue (SharedBuffer.buffer self')
     = Queue.queue (SharedBuffer.buffer self) ++ [item]) ∧
  (∀ self self' item,
     SharedBuffer.remove self = Returns (self', Some item) →
     Queue.queue (SharedBuffer.buffer self)
     = item :: Queue.queue (SharedBuffer.buffer self')).
Proof.
  split_and!.
  - intros self self' a b c Hq Hrun.
    apply run_cons in Hrun as (s1 & H1%perform_insert & Hrun).
    apply run_cons in Hrun as (s2 & H2%perform_insert & Hrun).
    apply run_cons in Hrun as (s3 & H3%perform_insert & Hrun).
    apply run_cons in Hrun as (s4 & H4%perform_remove & Hrun).
    apply run_cons in Hrun as (s5 & H5%perform_remove & Hrun).
    apply run_cons in Hrun as (s6 & H6%perform_remove & _).
    apply insert_true in H1 as (_ & _ & _ & ->).
    apply insert_true in H2 as (_ & _ & _ & ->).
    apply insert_true in H3 as (_ & _ & _ & ->).
    apply remove_Some in H4 as (r4 & _ & _ & E4 & ->).
    apply remove_Some in H5 as (r5 & _ & _ & E5 & ->).
    apply remove_Some in H6 as (r6 & _ & _ & E6 & ->).
    simpl in *. rewrite Hq in E4. simpl in E4.
    injection E4 as <- <-. injection E5 as <- <-. injection E6 as <- <-. done.
  - intros size self Hsize [_ ->]%init_Some. eexists.
    cbn [SharedBuffer.run SharedBuffer.perform].
    rewrite insert_ok;
      [|lia|lia|apply full_false_iff; unfold Queue.qsize; cbn; lia].
    rewrite insert_ok;
      [|lia|lia|apply full_false_iff; unfold Queue.qsize; cbn; lia].
    rewrite insert_ok;
      [|lia|lia|apply full_false_iff; unfold Queue.qsize; cbn; lia].
    cbn [Queue.queue Queue.maxsize app].
    rewrite remove_ok by lia. rewrite remove_ok by lia. rewrite remove_ok by lia.
    reflexivity.
  - intros self self' item (_ & _ & _ & ->)%insert_true. done.
  - intros self self' item (rest & _ & _ & E & ->)%remove_Some. done.
Qed.

Lemma fifo_order_witness :
  ∃ self',
    SharedBuffer.run (SharedBuffer.mk (Queue.mk 3 []) 1 3 0 0 0)
      [SharedBuffer.Insert 1; SharedBuffer.Insert 2; SharedBuffer.Insert 3;
       SharedBuffer.Remove; SharedBuffer.Remove; SharedBuffer.Remove]
    = Returns (self', [SharedBuffer.Inserted true; SharedBuffer.Inserted true;
                       SharedBuffer.Inserted true; SharedBuffer.Removed (Some 1);
                       SharedBuffer.Removed (Some 2); SharedBuffer.Removed (Some 3)]).
Proof.
  destruct fifo_order as (_ & H & _). apply (H 3); [lia | reflexivity].
Defined.

(** C9 (counter/size coherence): every sequence of calls on a freshly built
    [SharedBuffer] returns, and after it [produced_count - consumed_count]
    is the buffer size and [consumed_count <= produced_count]; an [insert]
    that returns [False] and a [remove] that returns [None] leave both
    counters as they were, whatever the state they ran in. *)
Theorem counter_coherence :
  (∀ size self calls,
     SharedBuffer.__init__ size = Some self →
     ∃ self' rs,
       SharedBuffer.run self calls = Returns (self', rs) ∧
       SharedBuffer.produced_count self' - SharedBuffer.consumed_count self'
         = SharedBuffer.get_size self' ∧
       SharedBuffer.consumed_count self' ≤ SharedBuffer.produced_count self') ∧
  (∀ self item self',
     SharedBuffer.insert self item = Returns (self', false) →
     SharedBuffer.produced_count self' = SharedBuffer.produced_count self ∧
     SharedBuffer.consumed_count self' = SharedBuffer.consumed_count self) ∧
  (∀ self self',
     SharedBuffer.remove self = Returns (self', None) →
     SharedBuffer.produced_count self' = SharedBuffer.produced_count self ∧
     SharedBuffer.consumed_count self' = SharedBuffer.consumed_count self).
Proof.
  split_and!.
  - intros size self calls Hinit.
    destruct (run_settled size self calls (init_settled _ _ Hinit))
      as (self' & rs & Hrun & (_ & _ & _ & _ & _ & _ & Hcount)).
    exists self', rs. split_and!; [done..|].
    pose proof (qsize_nonneg (SharedBuffer.buffer self')).
    unfold SharedBuffer.get_size in *. lia.
  - by intros self item self' ->%insert_false.
  - by intros self self' ->%remove_None.
Qed.

Lemma counter_coherence_witness :
  ∃ self' rs,
    SharedBuffer.run (SharedBuffer.mk (Queue.mk 1 []) 1 1 0 0 0)
      [SharedBuffer.Insert 4; SharedBuffer.Insert 5; SharedBuffer.Remove; SharedBuffer.Remove]
    = Returns (self', rs) ∧
    SharedBuffer.produced_count self' - SharedBuffer.consumed_count self'
      = SharedBuffer.get_size self' ∧
    SharedBuffer.consumed_count self' ≤ SharedBuffer.produced_count self'.
Proof.
  destruct counter_coherence as (H & _). apply (H 1). reflexivity.
Defined.

(** ** Counting threads *)

Section Tally.
Context {P : Type}.
Implicit Types (f : P → Z) (threads : list P).

Lemma tally_insert f threads i p p' :
  threads !! i = Some p →
  tally f (<[i := p']> threads) = tally f threads - f p + f p'.
Proof.
  revert i. induction threads as [|q threads IH]; intros [|i] Hi; simplify_eq/=.
  - lia.
  - rewrite (IH i Hi). lia.
Qed.

Lemma tally_nonneg f threads : (∀ p, 0 ≤ f p) → 0 ≤ tally f threads.
Proof. intros Hf. induction threads as [|q threads IH]; simpl; [lia|]. specialize (Hf q). lia. Qed.

Lemma tally_lookup f threads i p :
  (∀ p, 0 ≤ f p) → threads !! i = Some p → f p ≤ tally f threads.
Proof.
  intros Hf. revert i. induction threads as [|q threads IH]; intros [|i] Hi; simplify_eq/=.
  - pose proof (tally_nonneg f threads Hf). lia.
  - specialize (IH i Hi). specialize (Hf q). lia.
Qed.

Lemma tally_zero f threads : Forall (λ p, f p = 0) threads → tally f threads = 0.
Proof. induction 1 as [|q threads Hq _ IH]; simpl; lia. Qed.

Lemma tally_add f g threads :
  tally (λ p, f p + g p) threads = tally f threads + tally g threads.
Proof. induction threads as [|q threads IH]; simpl; lia. Qed.

Lemma tally_le_length f threads :
  (∀ p, f p ≤ 1) → tally f threads ≤ Z.of_nat (length threads).
Proof. intros Hf. induction threads as [|q threads IH]; simpl; [lia|]. specialize (Hf q). lia. Qed.

Lemma tally_all_one f threads :
  Forall (λ p, f p = 1) threads → tally f threads = Z.of_nat (length threads).
Proof. induction 1 as [|q threads Hq _ IH]; simpl; lia. Qed.

(** One thread weighing nothing leaves room in the count. *)
Lemma tally_lt_length f threads i p :
  (∀ p, f p ≤ 1) → threads !! i = Some p → f p = 0 →
  tally f threads < Z.of_nat (length threads).
Proof.
  intros Hf. revert i. induction threads as [|q threads IH]; intros [|i] Hi Hp; simplify_eq/=.
  - pose proof (tally_le_length f threads Hf). lia.
  - specialize (IH i Hi Hp). specialize (Hf q). lia.
Qed.
End Tally.

(** ** [SharedBuffer] under any interleaving *)

Lemma local_weights_nonneg :
  (∀ p, 0 ≤ Local.holds_empty p) ∧ (∀ p, 0 ≤ Local.owes_full p) ∧
  (∀ p, 0 ≤ Local.holds_full p) ∧ (∀ p, 0 ≤ Local.owes_empty p) ∧
  (∀ p, 0 ≤ Local.in_mutex p) ∧ (∀ p, 0 ≤ Local.uncounted_put p) ∧
  (∀ p, 0 ≤ Local.uncounted_get p).
Proof. split_and!; intros []; simpl; lia. Qed.

Lemma boot_invariant size n σ : Local.boot size n = Some σ → local_invariant size σ.
Proof.
  unfold Local.boot. destruct (SharedBuffer.__init__ size) as [self|] eqn:Hinit; [|done].
  intros [= <-]. apply init_Some in Hinit as [? ->].
  assert (∀ f, f Local.Idle = 0 → tally f (replicate n Local.Idle) = 0) as Hz.
  { intros f Hf. apply tally_zero, Forall_replicate. done. }
  unfold local_invariant, SharedBuffer.get_size, Queue.qsize. simpl.
  rewrite !Hz by done. lia.
Qed.

Ltac local_step_cases H :=
  match type of H with
  | Local.step ?a ?self ?p = Some _ =>
      destruct self as [q m e f np nc];
      destruct a as [[item'|]| |]; destruct p; simpl in H; try discriminate H
  end.

Ltac local_unpack H :=
  repeat match type of H with
    | context [Semaphore.acquire ?v] =>
        let E := fresh "E" in
        destruct (Semaphore.acquire v) eqn:E;
        [apply acquire_Some in E as [? ->] | apply acquire_None in E];
        simpl in H; try discriminate H
    | context [Queue.put ?q ?x] =>
        let E := fresh "E" in
        destruct (Queue.put q x) eqn:E;
        [apply put_Some in E as (? & -> & ?) | ];
        simpl in H; try discriminate H
    | context [Queue.get ?q] =>
        let E := fresh "E" in
        destruct (Queue.get q) as [[??]|] eqn:E;
        [apply get_Some in E as (? & ? & ?) | ];
        simpl in H; try discriminate H
    end;
  try (injection H as <- <-).

Lemma fire_invariant size σ i a σ' :
  Local.fire σ i a = Some σ' → local_invariant size σ → local_invariant size σ'.
Proof.
  unfold Local.fire. destruct σ as [self threads]. simpl.
  destruct (threads !! i) as [p|] eqn:Hi; [|done]. simpl.
  destruct (Local.step a self p) as [[self' p']|] eqn:Hstep; [|done]. simpl.
  intros [= <-].
  unfold local_invariant. simpl.
  rewrite !(tally_insert _ _ _ _ p' Hi).
  local_step_cases Hstep; local_unpack Hstep;
    unfold SharedBuffer.get_size, Semaphore.release in *; simpl in *; lia.
Qed.

Lemma exec_invariant size schedule : ∀ σ σ',
  Local.exec σ schedule = Some σ' → local_invariant size σ → local_invariant size σ'.
Proof.
  induction schedule as [|[i a] schedule IH]; intros σ σ'; simpl.
  - by intros [= <-].
  - destruct (Local.fire σ i a) as [σ1|] eqn:Hfire; [|done]. simpl.
    intros Hexec Hinv. eapply IH; [done|]. by eapply fire_invariant.
Qed.

Lemma tally_held threads :
  tally Local.held threads
  = tally Local.holds_empty threads + tally Local.owes_full threads
    + tally Local.holds_full threads + tally Local.owes_empty threads.
Proof. unfold Local.held. rewrite !tally_add. done. Qed.

Lemma tally_at_rest f threads :
  (∀ p, Local.at_rest p → f p = 0) → Forall Local.at_rest threads → tally f threads = 0.
Proof. intros Hf Hrest. apply tally_zero. eapply Forall_impl; [done|]. auto. Qed.

(** In a reachable state no thread is stuck: one at rest can start a
    call, one at an [acquire] can take the permit or time out, and the
    [put] and [get] inside the mutex never have to wait. *)
Lemma local_progress size σ i p :
  local_invariant size σ → Local.threads σ !! i = Some p →
  ∃ a, is_Some (Local.fire σ i a).
Proof.
  destruct σ as [self threads]. unfold local_invariant, Local.fire. simpl.
  intros (Hmax & Hpos & Hcap & Hfull & _) Hi. rewrite Hi. simpl.
  destruct local_weights_nonneg as (He & Hof & Hf & Hoe & _).
  pose proof (tally_lookup _ _ _ _ He Hi).
  pose proof (tally_lookup _ _ _ _ Hf Hi).
  pose proof (tally_nonneg Local.owes_empty threads Hoe).
  pose proof (tally_nonneg Local.owes_full threads Hof).
  unfold SharedBuffer.get_size in *.
  destruct p; simpl in *;
    try (exists (Local.Start SharedBuffer.Remove); simpl; by eexists);
    try (exists Local.Proceed; simpl; by eexists).
  - destruct (Semaphore.acquire (SharedBuffer.empty self)) eqn:E.
    + exists Local.Proceed. simpl. rewrite E. by eexists.
    + exists Local.Expire. simpl. rewrite E. by eexists.
  - destruct (Semaphore.acquire (SharedBuffer.mutex self)) eqn:E.
    + exists Local.Proceed. simpl. rewrite E. by eexists.
    + exists Local.Expire. simpl. rewrite E. by eexists.
  - exists Local.Proceed. simpl. rewrite put_not_full by (apply full_false_iff; lia).
    by eexists.
  - destruct (Semaphore.acquire (SharedBuffer.full self)) eqn:E.
    + exists Local.Proceed. simpl. rewrite E. by eexists.
    + exists Local.Expire. simpl. rewrite E. by eexists.
  - destruct (Semaphore.acquire (SharedBuffer.mutex self)) eqn:E.
    + exists Local.Proceed. simpl. rewrite E. by eexists.
    + exists Local.Expire. simpl. rewrite E. by eexists.
  - exists Local.Proceed. simpl.
    destruct (Queue.get (SharedBuffer.buffer self)) as [[??]|] eqn:E; [by eexists|].
    apply get_None in E. lia.
Qed.

(** A call made while no other thread moves is the call-level function:
    the thread-level machine, run on the schedule [Local.solo], ends where
    [insert] or [remove] says, and waits for ever exactly when they do. *)
Lemma solo_perform self c p :
  Local.at_rest p →
  Local.exec (Local.System self [p]) (Local.solo self c)
  = match SharedBuffer.perform self c with
    | Returns (self', r) => Some (Local.System self' [Local.Returned r])
    | Blocks => None
    end.
Proof.
  intros Hp. destruct self as [q m e f np nc].
  destruct c as [item|]; unfold Local.solo, SharedBuffer.perform; simpl.
  - unfold SharedBuffer.insert. simpl.
    destruct (Semaphore.acquire e) as [e'|] eqn:E.
    + destruct (Semaphore.acquire m) as [m'|] eqn:M.
      * destruct p; try done; simpl; unfold Local.fire; simpl; rewrite E; simpl;
          rewrite M; simpl; destruct (Queue.put q item); done.
      * destruct p; try done; simpl; unfold Local.fire; simpl; rewrite E; simpl;
          rewrite M; done.
    + destruct p; try done; simpl; unfold Local.fire; simpl; rewrite E; done.
  - unfold SharedBuffer.remove. simpl.
    destruct (Semaphore.acquire f) as [f'|] eqn:F.
    + destruct (Semaphore.acquire m) as [m'|] eqn:M.
      * destruct p; try done; simpl; unfold Local.fire; simpl; rewrite F; simpl;
          rewrite M; simpl; destruct (Queue.get q) as [[??]|]; done.
      * destruct p; try done; simpl; unfold Local.fire; simpl; rewrite F; simpl;
          rewrite M; done.
    + destruct p; try done; simpl; unfold Local.fire; simpl; rewrite F; done.
Qed.

(** C1 (permit conservation): on a buffer built with capacity [size] and
    shared by any number of threads, after any interleaving of the
    statements of their [insert] and [remove] calls, the empty-slot permits
    plus the filled-slot permits plus the permits held by calls still in
    progress make [size]; so whenever every call has returned (with a
    result or after a timeout at either gate) the two permit counts alone
    make [size]: no call returns holding a permit.  In particular every
    sequence of calls made one after the other returns and leaves the two
    counts adding up to [size]. *)
Theorem permit_conservation :
  (∀ size n σ0 schedule σ,
     Local.boot size n = Some σ0 →
     Local.exec σ0 schedule = Some σ →
     SharedBuffer.empty (Local.shared σ) + SharedBuffer.full (Local.shared σ)
       + tally Local.held (Local.threads σ) = size ∧
     (Local.quiescent σ →
      SharedBuffer.empty (Local.shared σ) + SharedBuffer.full (Local.shared σ) = size)) ∧
  (∀ size self calls,
     SharedBuffer.__init__ size = Some self →
     ∃ self' rs,
       SharedBuffer.run self calls = Returns (self', rs) ∧
       SharedBuffer.empty self' + SharedBuffer.full self' = size).
Proof.
  split.
  - intros size n σ0 schedule σ Hboot Hexec.
    pose proof (exec_invariant size schedule σ0 σ Hexec (boot_invariant _ _ _ Hboot))
      as (_ & _ & Hcap & Hfull & _).
    assert (SharedBuffer.empty (Local.shared σ) + SharedBuffer.full (Local.shared σ)
            + tally Local.held (Local.threads σ) = size) as Hsum.
    { rewrite tally_held. lia. }
    split; [done|]. intros Hq.
    rewrite (tally_at_rest Local.held) in Hsum; [lia| |done]. by intros [].
  - intros size self calls Hinit.
    destruct (run_settled size self calls (init_settled _ _ Hinit))
      as (self' & rs & Hrun & (_ & _ & _ & _ & Hsum & Hfull & _)).
    exists self', rs. split; [done|]. lia.
Qed.

(** Two threads on a buffer of capacity 2: thread 0 is inside [insert 7]
    holding the mutex when thread 1's [insert 8] takes a slot permit, times
    out at the mutex and gives the permit back; then thread 0 finishes. *)
Lemma permit_conservation_witness :
  let σ0 := Local.System (SharedBuffer.mk (Queue.mk 2 []) 1 2 0 0 0)
                         [Local.Idle; Local.Idle] in
  let schedule :=
    [(0%nat, Local.Start (SharedBuffer.Insert 7)); (0%nat, Local.Proceed);
     (0%nat, Local.Proceed);
     (1%nat, Local.Start (SharedBuffer.Insert 8)); (1%nat, Local.Proceed);
     (1%nat, Local.Expire); (1%nat, Local.Proceed);
     (0%nat, Local.Proceed); (0%nat, Local.Proceed); (0%nat, Local.Proceed);
     (0%nat, Local.Proceed)] in
  let σ := Local.System (SharedBuffer.mk (Queue.mk 2 [7]) 1 1 1 1 0)
                        [Local.Returned (SharedBuffer.Inserted true);
                         Local.Returned (SharedBuffer.Inserted false)] in
  Local.exec σ0 schedule = Some σ ∧
  SharedBuffer.empty (Local.shared σ) + SharedBuffer.full (Local.shared σ) = 2.
Proof.
  intros σ0 schedule σ. split; [reflexivity|].
  destruct permit_conservation as [H _].
  apply (H 2 2%nat σ0 schedule σ); [reflexivity | reflexivity |].
  repeat constructor.
Defined.

(** ** [SharedBufferServer]: one request at a time *)

Section Server.
Import SharedBufferServer.
Variable str : json → string.
Variable loads : string → option json.

Lemma handle_producer_full self request :
  lock self = false → Queue.full (buffer self) = true →
  handle_producer str self request = Returns (self, buffer_full_response).
Proof. unfold handle_producer. by intros -> ->. Qed.

Lemma handle_producer_room self request :
  lock self = false → Queue.full (buffer self) = false →
  handle_producer str self request
  = Returns (set_buffer self (Queue.mk (Queue.maxsize (buffer self))
                                       (Queue.queue (buffer self) ++ [get request "item"])),
             produced_response str (get request "item") (Queue.qsize (buffer self) + 1)).
Proof.
  unfold handle_producer. intros -> Hfull. rewrite Hfull, put_not_full by done.
  do 3 f_equal. unfold Queue.qsize. simpl. rewrite length_app. simpl. lia.
Qed.

Lemma handle_consumer_empty self request :
  lock self = false → Queue.empty (buffer self) = true →
  handle_consumer str self request = Returns (self, buffer_empty_response).
Proof. unfold handle_consumer. by intros -> ->. Qed.

Lemma handle_consumer_item self request item rest :
  lock self = false → Queue.queue (buffer self) = item :: rest →
  handle_consumer str self request
  = Returns (set_buffer self (Queue.mk (Queue.maxsize (buffer self)) rest),
             consumed_response str item (Z.of_nat (length rest))).
Proof.
  unfold handle_consumer, Queue.empty, Queue.get, Queue.qsize. intros -> ->. simpl.
  destruct (Z.eqb_spec (Z.pos (Pos.of_succ_nat (length rest))) 0); [lia|]. done.
Qed.

Lemma is_type_true client_type name :
  is_type client_type name = true ↔ client_type = JStr name.
Proof.
  destruct client_type; simpl; try (split; [done|intros [=]]).
  rewrite String.eqb_eq. split; [by intros ->|by intros [= ->]].
Qed.

(** Between requests no request waits for ever, and the size stays
    within a positive capacity. *)
Lemma handle_client_serving capacity self data :
  1 ≤ capacity → serving capacity self →
  ∃ self' reply, handle_client str loads self data = Returns (self', reply) ∧
                 serving capacity self'.
Proof.
  intros Hcap Hs. pose proof Hs as (Hmax & Hlock & Hsize). unfold handle_client.
  destruct data as [|a data']; [by eauto|].
  destruct (loads _) as [[| | | | |request]|]; try by eauto.
  destruct (is_type _ "producer").
  { destruct (Queue.full (buffer self)) eqn:Hfull.
    - rewrite handle_producer_full by done. simpl. by eauto.
    - rewrite handle_producer_room by done. simpl. eexists _, _. split; [done|].
      apply full_false_iff in Hfull.
      unfold serving, Queue.qsize in *. simpl. rewrite length_app. simpl.
      split_and!; [done..|lia]. }
  destruct (is_type _ "consumer"); [|by eauto].
  destruct (Queue.queue (buffer self)) as [|item rest] eqn:Hq.
  - rewrite handle_consumer_empty by (try apply empty_true_iff; done). simpl. by eauto.
  - erewrite handle_consumer_item by done. simpl. eexists _, _. split; [done|].
    unfold serving, Queue.qsize in *. rewrite Hq in Hsize. simpl in *.
    split_and!; [done..|lia].
Qed.

Lemma serve_serving capacity connections : ∀ self,
  1 ≤ capacity → serving capacity self →
  ∃ self' replies, serve str loads self connections = Returns (self', replies) ∧
                   serving capacity self'.
Proof.
  induction connections as [|data rest IH]; intros self Hcap Hs; simpl.
  - eauto.
  - destruct (handle_client_serving capacity self data Hcap Hs) as (self1 & r & -> & Hs1).
    destruct (IH self1 Hcap Hs1) as (self2 & rs & -> & Hs2). eauto.
Qed.

End Server.

Section ServerReplies.
Import SharedBufferServer.
Variable str : json → string.
Variable loads : string → option json.

Lemma produced_response_lookup item size :
  produced_response str item size !! "status" = Some (JStr "success") ∧
  produced_response str item size !! "buffer_size" = Some (JNum size).
Proof. unfold produced_response. split; by simplify_map_eq. Qed.

Lemma consumed_response_lookup item size :
  consumed_response str item size !! "status" = Some (JStr "success") ∧
  consumed_response str item size !! "item" = Some item ∧
  consumed_response str item size !! "buffer_size" = Some (JNum size).
Proof. unfold consumed_response. split_and!; by simplify_map_eq. Qed.


(** C7 (unknown request type): a request object whose [type] is neither
    "producer" nor "consumer", a missing [type] included, is answered with
    exactly status error and message "Invalid client type", and the server
    object, its buffer included, is unchanged. *)
Theorem unknown_type_rejected (self : t) (data : string) (request : gmap string json) :
  data ≠ EmptyString →
  loads data = Some (JObj request) →
  request !! "type" ≠ Some (JStr "producer") →
  request !! "type" ≠ Some (JStr "consumer") →
  handle_client str loads self data
  = Returns (self, Some {[ "status" := JStr "error";
                           "message" := JStr "Invalid client type" ]}).
Proof.
  intros Hdata Hloads Hp Hc. unfold handle_client.
  destruct data as [|a data']; [done|]. rewrite Hloads.
  assert (∀ name, request !! "type" ≠ Some (JStr name) →
                  is_type (get request "type") name = false) as Hno.
  { intros name Hne. apply not_true_iff_false. rewrite is_type_true. unfold get.
    destruct (request !! "type") as [v|]; simpl; [|done]. by intros ->. }
  rewrite !Hno by done. done.
Qed.

(** C10 (missing payload accepted): a producer request with no [item]
    field, handled with the lock free against a buffer that is not full,
    is answered with status success and puts the null value at the back of
    the queue; once the items that were ahead of it have been consumed,
    the next consume succeeds and returns a null item. *)
Theorem missing_payload_accepted (self : t) (request request' : gmap string json) :
  lock self = false →
  request !! "item" = None →
  Queue.full (buffer self) = false →
  ∃ self1 response,
    handle_producer str self request = Returns (self1, response) ∧
    response !! "status" = Some (JStr "success") ∧
    Queue.queue (buffer self1) = Queue.queue (buffer self) ++ [JNull] ∧
    ∃ self2 earlier self3 response',
      consume_times str self1 request' (length (Queue.queue (buffer self)))
        = Returns (self2, earlier) ∧
      handle_consumer str self2 request' = Returns (self3, response') ∧
      response' !! "status" = Some (JStr "success") ∧
      response' !! "item" = Some JNull.
Proof.
  intros Hlock Hitem Hfull.
  rewrite handle_producer_room by done.
  unfold get. rewrite Hitem. simpl.
  eexists _, _. split; [done|]. split; [apply produced_response_lookup|].
  split; [done|].
  set (self1 := set_buffer self _).
  assert (lock self1 = false) as Hlock1 by done.
  assert (Queue.queue (buffer self1) = Queue.queue (buffer self) ++ [JNull]) as Hq1 by done.
  clearbody self1. clear Hfull Hitem Hlock.
  revert self1 Hlock1 Hq1.
  induction (Queue.queue (buffer self)) as [|item older IH]; intros self1 Hlock1 Hq1; simpl.
  - eexists _, _, _, _. split; [done|].
    split; [by apply handle_consumer_item|].
    split; apply consumed_response_lookup.
  - rewrite (handle_consumer_item str self1 request' item (older ++ [JNull])) by done.
    edestruct (IH (set_buffer self1 (Queue.mk (Queue.maxsize (buffer self1)) (older ++ [JNull]))))
      as (self2 & earlier & self3 & response' & -> & ? & ? & ?); [done..|].
    eexists _, _, _, _. split; [done|]. eauto.
Qed.

End ServerReplies.


Lemma unknown_type_rejected_witness :
  let str := λ _ : json, "x" in
  let loads := λ _ : string, Some (JObj {[ "type" := JStr "admin" ]}) in
  let self := SharedBufferServer.__init__ "localhost" 5555 15 in
  SharedBufferServer.handle_client str loads self "{}"
  = Returns (self, Some {[ "status" := JStr "error";
                           "message" := JStr "Invalid client type" ]}).
Proof.
  intros str loads self.
  apply (unknown_type_rejected str loads self "{}" {[ "type" := JStr "admin" ]});
    [done | reflexivity | vm_compute; congruence | vm_compute; congruence].
Defined.

Lemma missing_payload_accepted_witness :
  let str := λ _ : json, "None" in
  let self := SharedBufferServer.mk "localhost" 5555 2 (Queue.mk 2 [JStr "a"]) false 0 0 in
  let request : gmap string json := {[ "type" := JStr "producer"; "id" := JStr "1" ]} in
  ∃ self1 response,
    SharedBufferServer.handle_producer str self request = Returns (self1, response) ∧
    response !! "status" = Some (JStr "success") ∧
    Queue.queue (SharedBufferServer.buffer self1) = [JStr "a"; JNull] ∧
    ∃ self2 earlier self3 response',
      consume_times str self1 ∅ 1 = Returns (self2, earlier) ∧
      SharedBufferServer.handle_consumer str self2 ∅ = Returns (self3, response') ∧
      response' !! "status" = Some (JStr "success") ∧
      response' !! "item" = Some JNull.
Proof.
  intros str self request.
  apply (missing_payload_accepted str self request ∅); reflexivity.
Defined.

(** ** [SharedBufferServer] under any interleaving *)

Lemma tally_lookup2 {P} (f : P → Z) threads i j p q :
  (∀ p, 0 ≤ f p) → i ≠ j → threads !! i = Some p → threads !! j = Some q →
  f p + f q ≤ tally f threads.
Proof.
  intros Hf. revert i j.
  induction threads as [|r threads IH]; intros [|i] [|j] Hij Hi Hj; simplify_eq/=.
  - pose proof (tally_lookup f threads j q Hf Hj). lia.
  - pose proof (tally_lookup f threads i p Hf Hi). lia.
  - assert (i ≠ j) as Hij' by congruence.
    specialize (IH i j Hij' Hi Hj). specialize (Hf r). lia.
Qed.

Lemma tally_exists {P} (f : P → Z) threads :
  (∀ p, 0 ≤ f p) → 1 ≤ tally f threads → ∃ i p, threads !! i = Some p ∧ 1 ≤ f p.
Proof.
  intros Hf. induction threads as [|r threads IH]; simpl; [lia|]. intros H.
  destruct (Z_le_gt_dec 1 (f r)).
  - by exists 0%nat, r.
  - destruct IH as (i & p & Hi & Hp); [lia|]. by exists (S i), p.
Qed.

Lemma in_lock_range p : 0 ≤ Net.in_lock p ≤ 1.
Proof. destruct p; simpl; lia. Qed.

Lemma in_lock_nonneg p : 0 ≤ Net.in_lock p.
Proof. apply in_lock_range. Qed.

Lemma start_invariant host port capacity connections :
  net_invariant capacity
    (Net.start (SharedBufferServer.__init__ host port capacity) connections).
Proof.
  unfold net_invariant, Net.start. simpl. split_and!.
  - done.
  - apply tally_zero, Forall_forall. intros p (data & -> & _)%list_elem_of_fmap. done.
  - unfold Queue.qsize. simpl. lia.
  - intros i item (data & [=] & _)%list_lookup_fmap_Some.
  - intros i (data & [=] & _)%list_lookup_fmap_Some.
Qed.

Section NetInvariant.
Import SharedBufferServer.
Variable str : json → string.
Variable loads : string → option json.

Lemma net_fire_invariant capacity σ i σ' :
  Net.fire str loads σ i = Some σ' → net_invariant capacity σ → net_invariant capacity σ'.
Proof.
  unfold Net.fire. destruct σ as [self threads]. simpl.
  destruct (threads !! i) as [p|] eqn:Hi; [|done]. simpl.
  destruct (Net.step str loads self p) as [[self' p']|] eqn:Hstep; [|done]. simpl.
  intros [= <-]. unfold net_invariant. simpl.
  intros (Hmax & Hlock & Hsize & Hput & Hget).
  rewrite (tally_insert _ _ _ _ p' Hi).
  (* another thread holding the lock would be a second holder *)
  assert (∀ j q, threads !! j = Some q → j ≠ i → Net.in_lock p = 1 →
                 Net.in_lock q = 0) as Hsole.
  { intros j q Hj Hji Hp.
    pose proof (tally_lookup2 Net.in_lock threads i j p q in_lock_nonneg
                  (not_eq_sym Hji) Hi Hj).
    pose proof (in_lock_range q). destruct (lock self); lia. }
  assert (∀ j q, <[i := p']> threads !! j = Some q →
                 (j = i ∧ q = p') ∨ (j ≠ i ∧ threads !! j = Some q)) as Hwho.
  { intros j q Hj. destruct (decide (j = i)) as [->|Hne].
    - left. split; [done|].
      rewrite list_lookup_insert_eq in Hj by (by eapply lookup_lt_Some). congruence.
    - right. split; [done|]. by rewrite list_lookup_insert_ne in Hj. }
  destruct p; simpl in Hstep.
  - (* Accepted *)
    assert (self' = self ∧ Net.in_lock p' = 0 ∧
            (∀ item, p' ≠ Net.Producer_put item) ∧ p' ≠ Net.Consumer_get)
      as (-> & Hp' & Hnp & Hng).
    { destruct data; [by simplify_eq|].
      destruct (loads _) as [[| | | | |request]|]; try by simplify_eq.
      destruct (is_type _ "producer"); [by simplify_eq|].
      destruct (is_type _ "consumer"); by simplify_eq. }
    simpl. split_and!; [done|lia|done|..].
    + intros j it [[-> Heq]|[? ?]]%Hwho; [by destruct (Hnp it)|by eauto].
    + intros j [[-> Heq]|[? ?]]%Hwho; [done|by eauto].
  - (* Producer_lock *)
    destruct (lock self) eqn:Hl; [done|]. simplify_eq. simpl.
    split_and!; [done|lia|done|..].
    + intros j it [[-> [=]]|[? ?]]%Hwho. by eauto.
    + intros j [[-> [=]]|[? ?]]%Hwho. by eauto.
  - (* Producer_check *)
    destruct (Queue.full (buffer self)) eqn:Hfull; simplify_eq; simpl.
    + split_and!; [done|lia|done|..].
      * intros j it [[-> [=]]|[? ?]]%Hwho. by eauto.
      * intros j [[-> [=]]|[? ?]]%Hwho. by eauto.
    + split_and!; [done|lia|done|..].
      * intros j it [[-> ?]|[? ?]]%Hwho; [done|by eauto].
      * intros j [[-> [=]]|[? ?]]%Hwho. by eauto.
  - (* Producer_put *)
    destruct (Queue.put (buffer self) item) as [q|] eqn:Hq; [|done].
    apply put_Some in Hq as (Hfull & -> & Hq'). injection Hstep as <- <-. simpl in *.
    split_and!; [done|lia|..].
    + intros Hcap. apply full_false_iff in Hfull. lia.
    + intros j it [[-> [=]]|[Hne Hj]]%Hwho.
      by specialize (Hsole _ _ Hj Hne eq_refl).
    + intros j [[-> [=]]|[Hne Hj]]%Hwho.
      by specialize (Hsole _ _ Hj Hne eq_refl).
  - (* Producer_size *)
    simplify_eq. simpl. split_and!; [done|lia|done|..].
    + intros j it [[-> [=]]|[? ?]]%Hwho. by eauto.
    + intros j [[-> [=]]|[? ?]]%Hwho. by eauto.
  - (* Consumer_lock *)
    destruct (lock self) eqn:Hl; [done|]. simplify_eq. simpl.
    split_and!; [done|lia|done|..].
    + intros j it [[-> [=]]|[? ?]]%Hwho. by eauto.
    + intros j [[-> [=]]|[? ?]]%Hwho. by eauto.
  - (* Consumer_check *)
    destruct (Queue.empty (buffer self)) eqn:Hempty; simplify_eq; simpl.
    + split_and!; [done|lia|done|..].
      * intros j it [[-> [=]]|[? ?]]%Hwho. by eauto.
      * intros j [[-> [=]]|[? ?]]%Hwho. by eauto.
    + split_and!; [done|lia|done|..].
      * intros j it [[-> [=]]|[? ?]]%Hwho. by eauto.
      * intros j [[-> ?]|[? ?]]%Hwho; [done|by eauto].
  - (* Consumer_get *)
    destruct (Queue.get (buffer self)) as [[item q]|] eqn:Hq; [|done].
    apply get_Some in Hq as (Hq & Hmax' & Hq'). injection Hstep as <- <-. simpl in *.
    split_and!; [congruence|lia|..].
    + intros Hcap. specialize (Hsize Hcap). lia.
    + intros j it [[-> [=]]|[Hne Hj]]%Hwho.
      by specialize (Hsole _ _ Hj Hne eq_refl).
    + intros j [[-> [=]]|[Hne Hj]]%Hwho.
      by specialize (Hsole _ _ Hj Hne eq_refl).
  - (* Consumer_size *)
    simplify_eq. simpl. split_and!; [done|lia|done|..].
    + intros j it [[-> [=]]|[? ?]]%Hwho. by eauto.
    + intros j [[-> [=]]|[? ?]]%Hwho. by eauto.
  - (* Unlock *)
    simplify_eq. simpl.
    pose proof (tally_lookup Net.in_lock threads i _ in_lock_nonneg Hi) as Hge.
    simpl in Hge.
    split_and!; [done|destruct (lock self); lia|done|..].
    + intros j it [[-> [=]]|[? ?]]%Hwho. by eauto.
    + intros j [[-> [=]]|[? ?]]%Hwho. by eauto.
  - (* Send *)
    simplify_eq. simpl. split_and!; [done|lia|done|..].
    + intros j it [[-> [=]]|[? ?]]%Hwho. by eauto.
    + intros j [[-> [=]]|[? ?]]%Hwho. by eauto.
  - (* Closed *) done.
Qed.

Lemma net_exec_invariant capacity schedule : ∀ σ σ',
  Net.exec str loads σ schedule = Some σ' →
  net_invariant capacity σ → net_invariant capacity σ'.
Proof.
  induction schedule as [|i schedule IH]; intros σ σ'; simpl.
  - by intros [= <-].
  - destruct (Net.fire str loads σ i) as [σ1|] eqn:Hfire; [|done]. simpl.
    intros Hexec Hinv. eapply IH; [done|]. by eapply net_fire_invariant.
Qed.

End NetInvariant.

(** A connection served while no other thread moves is [handle_client]:
    the connection thread, stepped on its own, closes the socket in the
    state and with the reply the function gives. *)
Lemma solo_handle_client str loads self data self' reply :
  SharedBufferServer.handle_client str loads self data = Returns (self', reply) →
  ∃ n, Net.exec str loads (Net.System self [Net.Accepted data]) (replicate n 0%nat)
       = Some (Net.System self' [Net.Closed reply]).
Proof.
  destruct self as [h p size q l np nc].
  unfold SharedBufferServer.handle_client.
  destruct data as [|a data'].
  { intros [= <- <-]. by exists 1%nat. }
  destruct (loads (String a data')) as [[| | | | |request]|] eqn:Hloads;
    try (intros [= <- <-]; exists 1%nat; simpl; unfold Net.fire; simpl;
         by rewrite Hloads).
  destruct (SharedBufferServer.is_type _ "producer") eqn:Hp.
  { unfold SharedBufferServer.handle_producer. simpl.
    destruct l; [done|].
    destruct (Queue.full q) eqn:Hfull.
    - intros [= <- <-]. exists 5%nat. simpl. unfold Net.fire. simpl.
      rewrite Hloads, Hp. simpl. by rewrite Hfull.
    - rewrite put_not_full by done. intros [= <- <-]. exists 7%nat.
      simpl. unfold Net.fire. simpl. rewrite Hloads, Hp. simpl. rewrite Hfull. simpl.
      by rewrite put_not_full. }
  destruct (SharedBufferServer.is_type _ "consumer") eqn:Hc.
  { unfold SharedBufferServer.handle_consumer. simpl.
    destruct l; [done|].
    destruct (Queue.empty q) eqn:Hempty.
    - intros [= <- <-]. exists 5%nat. simpl. unfold Net.fire. simpl.
      rewrite Hloads, Hp, Hc. simpl. by rewrite Hempty.
    - destruct (Queue.get q) as [[item q']|] eqn:Hget; [|done].
      intros [= <- <-]. exists 7%nat.
      simpl. unfold Net.fire. simpl. rewrite Hloads, Hp, Hc. simpl. rewrite Hempty. simpl.
      by rewrite Hget. }
  intros [= <- <-]. exists 2%nat. simpl. unfold Net.fire. simpl.
  by rewrite Hloads, Hp, Hc.
Qed.

(** C3 (capacity invariant), as the code has it: the size of a
    [SharedBuffer(size)] stays between 0 and [size] after every sequence of
    calls (each of which returns) and in every state its threads can reach
    by interleaving their calls; the size of the buffer of a
    [SharedBufferServer] built with a capacity of at least 1 stays between
    0 and that capacity after every sequence of requests (each of which is
    answered or dropped without waiting) and in every state its connection
    threads can reach. *)
Theorem capacity_invariant :
  (∀ size self calls,
     SharedBuffer.__init__ size = Some self →
     ∃ self' rs,
       SharedBuffer.run self calls = Returns (self', rs) ∧
       0 ≤ SharedBuffer.get_size self' ≤ size) ∧
  (∀ size n σ0 schedule σ,
     Local.boot size n = Some σ0 →
     Local.exec σ0 schedule = Some σ →
     0 ≤ SharedBuffer.get_size (Local.shared σ) ≤ size) ∧
  (∀ str loads host port capacity connections,
     1 ≤ capacity →
     ∃ self' replies,
       SharedBufferServer.serve str loads
         (SharedBufferServer.__init__ host port capacity) connections
       = Returns (self', replies) ∧
       0 ≤ Queue.qsize (SharedBufferServer.buffer self') ≤ capacity) ∧
  (∀ str loads host port capacity connections schedule σ,
     1 ≤ capacity →
     Net.exec str loads
       (Net.start (SharedBufferServer.__init__ host port capacity) connections) schedule
     = Some σ →
     0 ≤ Queue.qsize (SharedBufferServer.buffer (Net.shared σ)) ≤ capacity).
Proof.
  split_and!.
  - intros size self calls Hinit.
    destruct (run_settled size self calls (init_settled _ _ Hinit))
      as (self' & rs & Hrun & (_ & _ & He & _ & Hsum & _)).
    exists self', rs. split; [done|].
    pose proof (qsize_nonneg (SharedBuffer.buffer self')).
    unfold SharedBuffer.get_size in *. lia.
  - intros size n σ0 schedule σ Hboot Hexec.
    pose proof (exec_invariant size schedule σ0 σ Hexec (boot_invariant _ _ _ Hboot))
      as (_ & (He & _) & Hcap & _).
    destruct local_weights_nonneg as (Hhe & _ & _ & Hoe & _).
    pose proof (tally_nonneg Local.holds_empty (Local.threads σ) Hhe).
    pose proof (tally_nonneg Local.owes_empty (Local.threads σ) Hoe).
    pose proof (qsize_nonneg (SharedBuffer.buffer (Local.shared σ))).
    unfold SharedBuffer.get_size in *. lia.
  - intros str loads host port capacity connections Hcap.
    destruct (serve_serving str loads capacity connections
                (SharedBufferServer.__init__ host port capacity) Hcap)
      as (self' & replies & Hserve & (_ & _ & Hsize)).
    { unfold serving, Queue.qsize. simpl. split_and!; [done..|lia]. }
    exists self', replies. split; [done|].
    pose proof (qsize_nonneg (SharedBufferServer.buffer self')). lia.
  - intros str loads host port capacity connections schedule σ Hcap Hexec.
    pose proof (net_exec_invariant str loads capacity schedule _ σ Hexec
                  (start_invariant host port capacity connections))
      as (_ & _ & Hsize & _).
    pose proof (qsize_nonneg (SharedBufferServer.buffer (Net.shared σ))). lia.
Qed.

Lemma capacity_invariant_witness :
  (∃ self' rs,
     SharedBuffer.run (SharedBuffer.mk (Queue.mk 1 []) 1 1 0 0 0)
       [SharedBuffer.Insert 1; SharedBuffer.Insert 2] = Returns (self', rs) ∧
     0 ≤ SharedBuffer.get_size self' ≤ 1) ∧
  (∃ self' replies,
     SharedBufferServer.serve (λ _, "a")
       (λ _, Some (JObj {[ "type" := JStr "producer"; "item" := JStr "a" ]}))
       (SharedBufferServer.__init__ "localhost" 5555 1) ["first"; "second"]
     = Returns (self', replies) ∧
     0 ≤ Queue.qsize (SharedBufferServer.buffer self') ≤ 1).
Proof.
  destruct capacity_invariant as (Hlocal & _ & Hserver & _). split.
  - apply (Hlocal 1). reflexivity.
  - apply Hserver. lia.
Defined.

(** C3 at capacity 0.  Read for every capacity, the invariant also covers
    a server built with capacity 0, and there it fails:
    [queue.Queue(maxsize=0)] is unbounded and [full()] is never true, so
    the first produce request is accepted and the size is 1, above the
    capacity. *)
Lemma server_unbounded_at_capacity_zero :
  let str := λ _ : json, "a" in
  let loads := λ _ : string,
    Some (JObj {[ "type" := JStr "producer"; "item" := JStr "a" ]}) in
  let self' := SharedBufferServer.mk "localhost" 5555 0 (Queue.mk 0 [JStr "a"]) false 0 0 in
  SharedBufferServer.serve str loads (SharedBufferServer.__init__ "localhost" 5555 0)
    ["first"]
  = Returns (self', [Some (SharedBufferServer.produced_response str (JStr "a") 1)]) ∧
  SharedBufferServer.buffer_size self' = 0 ∧
  Queue.qsize (SharedBufferServer.buffer self') = 1 ∧
  ¬ (0 ≤ Queue.qsize (SharedBufferServer.buffer self')
       ≤ SharedBufferServer.buffer_size self').
Proof.
  intros str loads self'. split; [vm_compute; reflexivity|].
  split; [reflexivity|]. split; [reflexivity|].
  vm_compute. intros [_ H]. by apply H.
Qed.

(** ** Two produce requests at once *)

Section Producers.
Import SharedBufferServer.
Variable str : json → string.
Variable loads : string → option json.

Lemma stored_range p : 0 ≤ stored p ≤ 1.
Proof. destruct p; simpl; lia. Qed.

Lemma succeeded_produced item size : Net.succeeded (produced_response str item size) = true.
Proof.
  unfold Net.succeeded.
  by destruct (produced_response_lookup str item size) as [-> _].
Qed.

Lemma start_producers host port capacity connections :
  Forall (Net.produce_request loads) connections →
  Z.of_nat (length connections) ≤ capacity →
  producers_invariant loads (Net.start (__init__ host port capacity) connections).
Proof.
  intros Hall Hlen. unfold producers_invariant, Net.start. simpl. split_and!.
  - apply Forall_fmap. eapply Forall_impl; [done|]. done.
  - unfold Queue.qsize. simpl. symmetry. apply tally_zero, Forall_fmap, Forall_true. done.
  - by rewrite length_fmap.
Qed.

(** With room for every thread, a thread that has not yet put finds the
    buffer not full. *)
Lemma producers_room σ i p :
  producers_invariant loads σ → Net.threads σ !! i = Some p → stored p = 0 →
  Queue.full (buffer (Net.shared σ)) = false.
Proof.
  intros (_ & Hq & Hlen) Hi Hp. apply full_false_iff. right.
  pose proof (tally_lt_length stored (Net.threads σ) i p
                (λ p, proj2 (stored_range p)) Hi Hp). lia.
Qed.

Lemma producers_fire σ i σ' :
  Net.fire str loads σ i = Some σ' →
  producers_invariant loads σ → producers_invariant loads σ'.
Proof.
  intros Hfire Hinv. pose proof Hinv as (Hall & Hq & Hlen).
  revert Hfire. unfold Net.fire.
  destruct (Net.threads σ !! i) as [p|] eqn:Hi; [|done]. simpl.
  destruct (Net.step str loads (Net.shared σ) p) as [[self' p']|] eqn:Hstep; [|done]. simpl.
  intros [= <-]. unfold producers_invariant. simpl.
  rewrite (tally_insert _ _ _ _ p' Hi), length_insert.
  pose proof (Forall_lookup_1 _ _ _ _ Hall Hi) as Hp.
  assert (producing loads p' →
          Forall (producing loads) (<[i := p']> (Net.threads σ))) as Hall'.
  { intros Hp'. by apply Forall_insert. }
  destruct p; simpl in Hstep, Hp; try done.
  - (* Accepted *)
    destruct Hp as (Hne & request & Hloads & Htype).
    destruct data; [done|]. rewrite Hloads, Htype in Hstep.
    injection Hstep as <- <-. simpl. split_and!; [by apply Hall'|lia|done].
  - (* Producer_lock *)
    destruct (lock (Net.shared σ)); [done|]. injection Hstep as <- <-. simpl.
    split_and!; [by apply Hall'|lia|done].
  - (* Producer_check *)
    rewrite (producers_room σ i _ Hinv Hi eq_refl) in Hstep.
    injection Hstep as <- <-. simpl. split_and!; [by apply Hall'|lia|done].
  - (* Producer_put *)
    destruct (Queue.put _ _) as [q|] eqn:Hput; [|done].
    apply put_Some in Hput as (_ & -> & Hsize).
    injection Hstep as <- <-. simpl in *. split_and!; [by apply Hall'|lia|done].
  - (* Producer_size *)
    injection Hstep as <- <-. simpl.
    split_and!; [apply Hall'; apply succeeded_produced|lia|done].
  - (* Unlock *)
    injection Hstep as <- <-. simpl. split_and!; [by apply Hall'|lia|done].
  - (* Send *)
    injection Hstep as <- <-. simpl. split_and!; [by apply Hall'|lia|done].
Qed.

Lemma producers_exec schedule : ∀ σ σ',
  Net.exec str loads σ schedule = Some σ' →
  producers_invariant loads σ → producers_invariant loads σ'.
Proof.
  induction schedule as [|i schedule IH]; intros σ σ'; simpl.
  - by intros [= <-].
  - destruct (Net.fire str loads σ i) as [σ1|] eqn:Hfire; [|done]. simpl.
    intros Hexec Hinv. eapply IH; [done|]. by eapply producers_fire.
Qed.

(** Every step uses up at least one of the statements a thread has
    left. *)
Lemma fire_remaining σ i σ' :
  Net.fire str loads σ i = Some σ' →
  tally Net.remaining (Net.threads σ') + 1 ≤ tally Net.remaining (Net.threads σ).
Proof.
  unfold Net.fire.
  destruct (Net.threads σ !! i) as [p|] eqn:Hi; [|done]. simpl.
  destruct (Net.step str loads (Net.shared σ) p) as [[self' p']|] eqn:Hstep; [|done]. simpl.
  intros [= <-]. simpl. rewrite (tally_insert _ _ _ _ p' Hi).
  enough (Net.remaining p' + 1 ≤ Net.remaining p) by lia.
  destruct p; simpl in Hstep.
  - destruct data; [by simplify_eq/=|].
    destruct (loads _) as [[| | | | |request]|]; try by simplify_eq/=.
    destruct (is_type _ "producer"); [by simplify_eq/=|].
    destruct (is_type _ "consumer"); by simplify_eq/=.
  - destruct (lock _); by simplify_eq/=.
  - destruct (Queue.full _); by simplify_eq/=.
  - destruct (Queue.put _ _); by simplify_eq/=.
  - by simplify_eq/=.
  - destruct (lock _); by simplify_eq/=.
  - destruct (Queue.empty _); by simplify_eq/=.
  - destruct (Queue.get _) as [[??]|]; by simplify_eq/=.
  - by simplify_eq/=.
  - by simplify_eq/=.
  - by simplify_eq/=.
  - done.
Qed.

Lemma exec_remaining schedule : ∀ σ σ',
  Net.exec str loads σ schedule = Some σ' →
  tally Net.remaining (Net.threads σ') + Z.of_nat (length schedule)
  ≤ tally Net.remaining (Net.threads σ).
Proof.
  induction schedule as [|i schedule IH]; intros σ σ'; simpl length.
  - intros [= <-]. lia.
  - simpl. destruct (Net.fire str loads σ i) as [σ1|] eqn:Hfire; [|done]. simpl.
    intros Hexec. specialize (IH _ _ Hexec).
    pose proof (fire_remaining _ _ _ Hfire). lia.
Qed.

Lemma remaining_nonneg p : 0 ≤ Net.remaining p.
Proof. destruct p; simpl; lia. Qed.

Lemma not_all_closed threads :
  ¬ Forall Net.closed threads → ∃ i p, threads !! i = Some p ∧ ¬ Net.closed p.
Proof.
  induction threads as [|q threads IH]; intros Hnot.
  - destruct Hnot. constructor.
  - assert (Net.closed q ∨ ¬ Net.closed q) as [Hq|Hq] by (destruct q; simpl; tauto).
    + destruct IH as (i & p & Hi & Hp).
      { intros Hall. apply Hnot. by constructor. }
      by exists (S i), p.
    + by exists 0%nat, q.
Qed.

(** The server never deadlocks: while some connection is still open,
    some thread can take a step. *)
Lemma net_progress capacity σ :
  net_invariant capacity σ → ¬ Net.all_closed σ →
  ∃ i, is_Some (Net.fire str loads σ i).
Proof.
  intros (_ & Hlock & _ & Hput & Hget) Hopen.
  assert (∀ i p, Net.threads σ !! i = Some p →
                 is_Some (Net.step str loads (Net.shared σ) p) →
                 is_Some (Net.fire str loads σ i)) as Hfire.
  { intros i p Hi [[self' p'] Hstep]. unfold Net.fire. rewrite Hi. simpl.
    rewrite Hstep. simpl. by eexists. }
  assert (∀ data self, is_Some (Net.step str loads self (Net.Accepted data))) as Hacc.
  { intros data self. simpl. destruct data; [by eexists|].
    destruct (loads _) as [[| | | | |request]|]; try by eexists.
    destruct (is_type _ "producer"); [by eexists|].
    destruct (is_type _ "consumer"); by eexists. }
  destruct (lock (Net.shared σ)) eqn:Hl.
  - (* the holder of the lock can move *)
    destruct (tally_exists Net.in_lock (Net.threads σ) in_lock_nonneg)
      as (i & p & Hi & Hp); [lia|].
    exists i. apply (Hfire i p Hi).
    destruct p; simpl in Hp; try lia; simpl.
    + destruct (Queue.full _); by eexists.
    + rewrite put_not_full by eauto. by eexists.
    + by eexists.
    + destruct (Queue.empty _); by eexists.
    + destruct (Queue.get _) as [[??]|] eqn:E; [by eexists|].
      apply get_None in E. specialize (Hget i Hi).
      unfold Queue.empty in Hget. apply Z.eqb_neq in Hget. done.
    + by eexists.
    + by eexists.
  - (* the lock is free: any open connection can move *)
    destruct (not_all_closed _ Hopen) as (i & p & Hi & Hp).
    exists i. apply (Hfire i p Hi).
    pose proof (tally_lookup Net.in_lock _ i p in_lock_nonneg Hi) as Hle.
    destruct p; simpl in Hle, Hp; try lia; try done; try apply Hacc;
      simpl; try rewrite Hl; by eexists.
Qed.

End Producers.

Lemma net_exec_length str loads schedule : ∀ σ σ',
  Net.exec str loads σ schedule = Some σ' →
  length (Net.threads σ') = length (Net.threads σ).
Proof.
  induction schedule as [|i schedule IH]; intros σ σ'; simpl.
  - by intros [= <-].
  - unfold Net.fire at 1. destruct (Net.threads σ !! i); [|done]. simpl.
    destruct (Net.step _ _ _ _) as [[??]|]; [|done]. simpl.
    intros Hexec. rewrite (IH _ _ Hexec). simpl. apply length_insert.
Qed.

(** C8 (no cross-talk): two produce requests served by two connection
    threads of a server of capacity 2 whose buffer is empty.  Whatever the
    interleaving of the threads' statements: at most one thread is inside
    the lock, the buffer never holds more than 2 items, some thread can
    always move until both connections are closed, that happens within 14
    steps, and then both requests were answered with success and the buffer
    holds exactly 2 items. *)
Theorem no_cross_talk (str : json → string) (loads : string → option json)
    (host : string) (port : Z) (d1 d2 : string) (schedule : list nat) (σ : Net.system) :
  Net.produce_request loads d1 →
  Net.produce_request loads d2 →
  Net.exec str loads (Net.start (SharedBufferServer.__init__ host port 2) [d1; d2]) schedule
    = Some σ →
  tally Net.in_lock (Net.threads σ) ≤ 1 ∧
  Queue.qsize (SharedBufferServer.buffer (Net.shared σ)) ≤ 2 ∧
  (¬ Net.all_closed σ → ∃ i, is_Some (Net.fire str loads σ i)) ∧
  Z.of_nat (length schedule) ≤ 14 ∧
  (Net.all_closed σ →
   Queue.qsize (SharedBufferServer.buffer (Net.shared σ)) = 2 ∧
   Forall (λ at_, ∃ response, at_ = Net.Closed (Some response) ∧
                              Net.succeeded response = true) (Net.threads σ)).
Proof.
  intros H1 H2 Hexec.
  pose proof (net_exec_invariant str loads 2 schedule _ σ Hexec
                (start_invariant host port 2 [d1; d2])) as Hnet.
  assert (Forall (Net.produce_request loads) [d1; d2]) as Hrequests.
  { constructor; [done|]. constructor; [done|]. constructor. }
  pose proof (producers_exec str loads schedule _ σ Hexec
                (start_producers loads host port 2 [d1; d2] Hrequests
                   ltac:(simpl; lia)))
    as (Hall & Hq & Hlen).
  pose proof (exec_remaining str loads schedule _ σ Hexec) as Hrem.
  pose proof (tally_nonneg Net.remaining (Net.threads σ) remaining_nonneg).
  pose proof (net_exec_length str loads schedule _ σ Hexec) as Hcount.
  pose proof Hnet as (_ & Hlock & Hsize & _).
  split_and!.
  - rewrite Hlock. destruct (SharedBufferServer.lock _); lia.
  - apply Hsize. lia.
  - by apply (net_progress str loads 2).
  - simpl in Hrem. lia.
  - intros Hclosed.
    assert (Forall (λ at_, ∃ response, at_ = Net.Closed (Some response) ∧
                                       Net.succeeded response = true) (Net.threads σ))
      as Hdone.
    { apply Forall_forall. intros p Hp.
      pose proof (proj1 (Forall_forall _ _) Hall p Hp) as Hprod.
      pose proof (proj1 (Forall_forall _ _) Hclosed p Hp) as Hcl.
      destruct p as [| | | | | | | | | | |[response|]]; try done. by exists response. }
    split; [|done]. rewrite Hq.
    replace 2 with (Z.of_nat (length (Net.threads σ))) by (rewrite Hcount; done).
    apply tally_all_one. eapply Forall_impl; [exact Hdone|].
    by intros p (response & -> & _).
Qed.

(** Both threads parse their request, thread 0 takes the lock first and
    thread 1 gets it once thread 0 has left the [with] block. *)
Lemma no_cross_talk_witness :
  let str := λ _ : json, "item" in
  let loads := λ data : string,
    Some (JObj {[ "type" := JStr "producer"; "id" := JStr "1"; "item" := JStr data ]}) in
  ∃ σ,
    Net.exec str loads
      (Net.start (SharedBufferServer.__init__ "localhost" 5555 2) ["a"; "b"])
      [0; 1; 0; 0; 0; 0; 0; 1; 0; 1; 1; 1; 1; 1]%nat = Some σ ∧
    Net.all_closed σ ∧
    Queue.queue (SharedBufferServer.buffer (Net.shared σ)) = [JStr "a"; JStr "b"] ∧
    Queue.qsize (SharedBufferServer.buffer (Net.shared σ)) = 2.
Proof.
  intros str loads. eexists. split; [vm_compute; reflexivity|].
  assert (∀ data, data ≠ EmptyString → Net.produce_request loads data) as Hreq.
  { intros data Hne. split; [done|]. eexists. split; [reflexivity|].
    vm_compute. reflexivity. }
  split; [repeat constructor|]. split; [reflexivity|].
  eapply (no_cross_talk str loads "localhost" 5555 "a" "b"
            [0; 1; 0; 0; 0; 0; 0; 1; 0; 1; 1; 1; 1; 1]%nat);
    [by apply Hreq | by apply Hreq | vm_compute; reflexivity | repeat constructor].
Defined.

(** ** The retrying clients *)

Section Retry.
Variable World : Type.
Variable exchange : gmap string json → World → option json * World.
Variables producer_id consumer_id : string.

Abbreviation produce := (producer_client.produce World exchange producer_id).
Abbreviation consume := (consumer_client.consume World exchange consumer_id).

(** The producer's inner loop while every request fails: it asks once per
    retry it has left, then gives the item up.  [refusing] holds of the
    worlds the run goes through: against them a request fails, and leaves
    such a world. *)
Lemma producer_retry_loop_fails (refusing : World → Prop) item max_retries :
  (∀ w, refusing w → (produce item w).1 = false ∧ refusing (produce item w).2) →
  ∀ (k fuel : nat) (retries : Z) (w : World),
    k = Z.to_nat (max_retries - retries) → (k ≤ fuel)%nat → refusing w →
    ∃ trace w',
      producer_client.retry_loop World exchange producer_id fuel item max_retries
        false retries w = Some (trace, false, w') ∧
      producer_client.attempts trace = replicate k item ∧
      producer_client.skipped trace = match k with O => [] | S _ => [item] end ∧
      refusing w'.
Proof.
  intros Hfail. induction k as [|k IH]; intros fuel retries w Hk Hfuel Hw.
  - exists [], w. destruct fuel; simpl;
      (destruct (Z.ltb_spec retries max_retries); [lia|done]).
  - destruct fuel as [|fuel]; [lia|]. simpl.
    destruct (Z.ltb_spec retries max_retries); [|lia]. simpl.
    destruct (Hfail w Hw) as [Hno Hw1].
    destruct (produce item w) as [ok w1]. simpl in Hno, Hw1. subst ok.
    destruct (Z.ltb_spec (retries + 1) max_retries).
    + destruct (IH fuel (retries + 1) w1) as (trace & w' & -> & Ha & Hs & Hw'); [lia..|done|].
      simpl. eexists _, _. split; [done|]. simpl. rewrite Ha, Hs.
      split; [done|]. split; [|done]. destruct k; [lia|done].
    + assert (k = 0%nat) as -> by lia.
      destruct (IH fuel (retries + 1) w1) as (trace & w' & -> & Ha & Hs & Hw'); [lia..|done|].
      simpl. eexists _, _. split; [done|]. simpl. rewrite Ha, Hs. done.
Qed.

Lemma continuous_production_fails (refusing : World → Prop) max_retries :
  (∀ item w, refusing w → (produce item w).1 = false ∧ refusing (produce item w).2) →
  ∀ (items : list json) (fuel : nat) (w : World),
    refusing w → (Z.to_nat max_retries ≤ fuel)%nat →
    ∃ trace w',
      producer_client.continuous_production World exchange producer_id fuel items
        max_retries w = Some (trace, w') ∧
      producer_client.attempts trace
      = flat_map (λ item, replicate (Z.to_nat max_retries) item) items ∧
      producer_client.skipped trace = (if 1 <=? max_retries then items else []) ∧
      refusing w'.
Proof.
  intros Hfail. induction items as [|item items IH]; intros fuel w Hw Hfuel.
  - exists [], w. split_and!; try done. by destruct (1 <=? max_retries).
  - simpl.
    destruct (producer_retry_loop_fails refusing item max_retries (Hfail item)
                (Z.to_nat max_retries) fuel 0 w) as (t1 & w1 & -> & Ha1 & Hs1 & Hw1);
      [f_equal; lia | done | done |].
    simpl. destruct (IH fuel w1 Hw1 Hfuel) as (t2 & w2 & -> & Ha2 & Hs2 & Hw2). simpl.
    eexists _, _. split; [done|].
    unfold producer_client.attempts, producer_client.skipped in *.
    rewrite !flat_map_app. rewrite Ha1, Ha2, Hs1, Hs2. split; [done|]. split; [|done].
    destruct (Z.leb_spec 1 max_retries);
      (destruct (Z.to_nat max_retries) eqn:E; [try lia; done|try lia; done]).
Qed.

(** The consumer's inner loop while every request fails and a retry is
    left: it asks once per retry, then returns from the method. *)
Lemma consumer_retry_loop_fails (refusing : World → Prop) max_retries :
  (∀ w, refusing w → (consume w).1 = JNull ∧ refusing (consume w).2) →
  ∀ (k fuel : nat) (retries : Z) (w : World),
    S k = Z.to_nat (max_retries - retries) → (S k ≤ fuel)%nat → refusing w →
    ∃ trace w',
      consumer_client.retry_loop World exchange consumer_id fuel max_retries
        JNull retries w = Some (trace, consumer_client.Return, w') ∧
      consumer_client.attempts trace = replicate (S k) JNull ∧
      last trace = Some consumer_client.Stopping ∧
      refusing w'.
Proof.
  intros Hfail. induction k as [|k IH]; intros fuel retries w Hk Hfuel Hw.
  - destruct fuel as [|fuel]; [lia|]. simpl.
    destruct (Z.ltb_spec retries max_retries); [|lia]. simpl.
    destruct (Hfail w Hw) as [Hno Hw1].
    destruct (consume w) as [item w1]. simpl in Hno, Hw1. subst item.
    simpl. destruct (Z.ltb_spec (retries + 1) max_retries); [lia|].
    eexists _, _. done.
  - destruct fuel as [|fuel]; [lia|]. simpl.
    destruct (Z.ltb_spec retries max_retries); [|lia]. simpl.
    destruct (Hfail w Hw) as [Hno Hw1].
    destruct (consume w) as [item w1]. simpl in Hno, Hw1. subst item.
    simpl. destruct (Z.ltb_spec (retries + 1) max_retries); [|lia].
    destruct (IH fuel (retries + 1) w1) as (trace & w' & -> & Ha & Hl & Hw'); [lia..|done|].
    simpl. eexists _, _. split; [done|]. simpl. rewrite Ha. split; [done|].
    split; [|done]. destruct trace; [done|]. done.
Qed.

(** C6 (retry exhaustion), as the code has it.  A producer with
    [max_retries = N], run against worlds that refuse every produce
    request (a server that stays full, or cannot be reached), makes
    exactly [N] requests for an item (none when [N] is 0 or less), gives
    it up (announcing the skip when [N] is at least 1) and goes on with the
    next item, for every item of its list.  A consumer with
    [max_retries = N] at least 1, asked for at least one item and run
    against worlds that refuse every consume request (a server that stays
    empty), makes exactly [N] requests and then returns from
    [continuous_consumption] with nothing consumed.  Both loops end: [N]
    units of fuel are enough.  Each half has only its own assumption. *)
Theorem retry_exhaustion (max_retries : Z) :
  (∀ refusing : World → Prop,
     (∀ item w, refusing w → (produce item w).1 = false ∧ refusing (produce item w).2) →
     ∀ (items : list json) (fuel : nat) (w : World),
       refusing w → (Z.to_nat max_retries ≤ fuel)%nat →
       ∃ trace w',
         producer_client.continuous_production World exchange producer_id fuel items
           max_retries w = Some (trace, w') ∧
         producer_client.attempts trace
         = flat_map (λ item, replicate (Z.to_nat max_retries) item) items ∧
         producer_client.skipped trace = (if 1 <=? max_retries then items else []) ∧
         refusing w') ∧
  (1 ≤ max_retries →
   ∀ refusing : World → Prop,
     (∀ w, refusing w → (consume w).1 = JNull ∧ refusing (consume w).2) →
     ∀ (max_items : Z) (fuel : nat) (w : World),
       refusing w → 1 ≤ max_items → (Z.to_nat max_retries ≤ fuel)%nat →
       ∃ trace w',
         consumer_client.continuous_consumption World exchange consumer_id fuel
           max_items max_retries w = Some (trace, 0, w') ∧
         consumer_client.attempts trace = replicate (Z.to_nat max_retries) JNull ∧
         last trace = Some consumer_client.Stopping ∧
         refusing w').
Proof.
  split.
  - intros refusing Hproduce items fuel w Hw Hfuel.
    by apply continuous_production_fails.
  - intros Hpos refusing Hconsume max_items fuel w Hw Hitems Hfuel.
    unfold consumer_client.continuous_consumption.
    destruct fuel as [|fuel]; [lia|].
    destruct (consumer_retry_loop_fails refusing max_retries Hconsume
                (Nat.pred (Z.to_nat max_retries)) (S fuel) 0 w)
      as (trace & w' & Hloop & Ha & Hl & Hw'); [lia..|done|].
    cbn [consumer_client.consumption_loop].
    destruct (Z.ltb_spec 0 max_items); [|lia].
    rewrite Hloop. simpl. exists trace, w'. split; [done|].
    split; [|done]. rewrite Ha. f_equal. lia.
Qed.

End Retry.

(** The clients against the server itself: each exchange is one
    connection handled by [handle_client], the server decoding the
    client's request as built.  A server of capacity 1 that holds an item
    refuses every produce and stays as it is, although it would serve a
    consume; a server that holds nothing refuses every consume, although
    it would serve a produce. *)
Lemma retry_exhaustion_witness :
  let str := λ _ : json, "x" in
  let exchange := λ (request : gmap string json) (self : SharedBufferServer.t),
    match SharedBufferServer.handle_client str (λ _, Some (JObj request)) self "request" with
    | Returns (self', Some response) => (Some (JObj response), self')
    | _ => (None, self)
    end in
  let holding := SharedBufferServer.mk "localhost" 5555 1 (Queue.mk 1 [JStr "a"]) false 0 0 in
  let vacant := SharedBufferServer.mk "localhost" 5555 1 (Queue.mk 1 []) false 0 0 in
  (∃ trace w',
     producer_client.continuous_production SharedBufferServer.t exchange "1" 3
       [JStr "P1-Item-1"; JStr "P1-Item-2"] 3 holding = Some (trace, w') ∧
     producer_client.attempts trace
     = [JStr "P1-Item-1"; JStr "P1-Item-1"; JStr "P1-Item-1";
        JStr "P1-Item-2"; JStr "P1-Item-2"; JStr "P1-Item-2"] ∧
     producer_client.skipped trace = [JStr "P1-Item-1"; JStr "P1-Item-2"] ∧
     w' = holding) ∧
  (∃ trace w',
     consumer_client.continuous_consumption SharedBufferServer.t exchange "1" 3 15 3 vacant
       = Some (trace, 0, w') ∧
     consumer_client.attempts trace = [JNull; JNull; JNull] ∧
     last trace = Some consumer_client.Stopping ∧
     w' = vacant).
Proof.
  intros str exchange holding vacant.
  destruct (retry_exhaustion SharedBufferServer.t exchange "1" "1" 3) as [Hp Hc].
  split.
  - apply (Hp (λ w, w = holding)); [|reflexivity|simpl; lia].
    intros item w ->. split; vm_compute; reflexivity.
  - apply (Hc ltac:(lia) (λ w, w = vacant)); [|reflexivity|lia|simpl; lia].
    intros w ->. split; vm_compute; reflexivity.
Defined.

(** C6 at [max_retries = 0].  Read for every retry bound, retry exhaustion
    also covers [max_retries = 0], and there the consumer does not stop:
    the inner loop is skipped, [item] is still [None], the method sleeps in
    its "waiting" branch and goes round the outer loop again, for ever: no
    amount of fuel makes it return. *)
Lemma consumer_never_returns_at_zero_retries :
  ¬ ∃ fuel result,
      consumer_client.continuous_consumption unit
        (λ (_ : gmap string json) (w : unit), (@None json, w)) "1" fuel 1 0 ()
      = Some result.
Proof.
  intros (fuel & result & Hrun). revert result Hrun.
  unfold consumer_client.continuous_consumption.
  induction fuel as [|fuel IH]; intros result; [done|].
  cbn [consumer_client.consumption_loop]. simpl.
  destruct (consumer_client.consumption_loop _ _ _ fuel 1 0 0 ()) as [r|] eqn:E.
  - by destruct (IH r).
  - done.
Qed.

(* ===================================================================== *)
(** * Part III: further properties of the code                            *)
(* ===================================================================== *)

(** ** [SharedBuffer]: what its users can rely on *)

Lemma perform_effect self c self' r :
  SharedBuffer.perform self c = Returns (self', r) →
  Queue.queue (SharedBuffer.buffer self) ++ accepted [c] [r]
    = delivered [r] ++ Queue.queue (SharedBuffer.buffer self') ∧
  SharedBuffer.produced_count self'
    = SharedBuffer.produced_count self + Z.of_nat (length (accepted [c] [r])) ∧
  SharedBuffer.consumed_count self'
    = SharedBuffer.consumed_count self + Z.of_nat (length (delivered [r])).
Proof.
  destruct c as [item|]; simpl.
  - destruct (SharedBuffer.insert self item) as [[s ok]|] eqn:Hins; [|done].
    intros [= <- <-]. destruct ok.
    + apply insert_true in Hins as (_ & _ & _ & ->). simpl. split_and!; [done|lia..].
    + apply insert_false in Hins as ->. simpl. rewrite app_nil_r. split_and!; [done|lia..].
  - destruct (SharedBuffer.remove self) as [[s [item|]]|] eqn:Hrem; [| |done].
    + intros [= <- <-]. apply remove_Some in Hrem as (rest & _ & _ & Hq & ->).
      simpl. rewrite Hq, app_nil_r. split_and!; [done|lia..].
    + intros [= <- <-]. apply remove_None in Hrem as ->. simpl. rewrite app_nil_r.
      split_and!; [done|lia..].
Qed.

Lemma accepted_cons c calls r rs :
  accepted (c :: calls) (r :: rs) = accepted [c] [r] ++ accepted calls rs.
Proof. destruct c as [item|], r as [[]|[]]; done. Qed.

Lemma delivered_cons r rs : delivered (r :: rs) = delivered [r] ++ delivered rs.
Proof. unfold delivered. simpl. by rewrite app_nil_r. Qed.

Lemma run_length calls : ∀ self self' rs,
  SharedBuffer.run self calls = Returns (self', rs) → length rs = length calls.
Proof.
  induction calls as [|c calls IH]; intros self self' rs; simpl.
  - by intros [= <- <-].
  - destruct (SharedBuffer.perform self c) as [[s1 r]|]; [|done].
    destruct (SharedBuffer.run s1 calls) as [[s2 rs']|] eqn:Hrun; [|done].
    intros [= <- <-]. simpl. f_equal. by eapply IH.
Qed.

Lemma run_cons_inv self c calls self' results :
  SharedBuffer.run self (c :: calls) = Returns (self', results) →
  ∃ self1 r rs, results = r :: rs ∧
                SharedBuffer.perform self c = Returns (self1, r) ∧
                SharedBuffer.run self1 calls = Returns (self', rs).
Proof.
  simpl. destruct (SharedBuffer.perform self c) as [[s1 r]|]; [|done].
  destruct (SharedBuffer.run s1 calls) as [[s2 rs]|] eqn:Hrun; [|done].
  intros [= <- <-]. by eexists _, _, _.
Qed.

(** X1 (nothing lost, nothing duplicated, nothing reordered): whatever
    state a sequence of calls starts in, the items that were in the queue
    followed by the items of the successful inserts are exactly the items
    the removes returned followed by the items still in the queue, in that
    order. *)
Theorem items_conserved (self self' : SharedBuffer.t) (calls : list SharedBuffer.call)
    (results : list SharedBuffer.result) :
  SharedBuffer.run self calls = Returns (self', results) →
  Queue.queue (SharedBuffer.buffer self) ++ accepted calls results
  = delivered results ++ Queue.queue (SharedBuffer.buffer self').
Proof.
  revert self self' results.
  induction calls as [|c calls IH]; intros self self' results.
  - intros [= <- <-]. simpl. by rewrite app_nil_r.
  - intros (s1 & r & rs & -> & Hc & Hrun)%run_cons_inv.
    apply perform_effect in Hc as (Hq & _). specialize (IH _ _ _ Hrun).
    rewrite accepted_cons, delivered_cons.
    rewrite app_assoc, Hq, <- !app_assoc. by rewrite IH.
Qed.

Lemma items_conserved_witness :
  let self := SharedBuffer.mk (Queue.mk 2 []) 1 2 0 0 0 in
  let calls := [SharedBuffer.Insert 4; SharedBuffer.Insert 5; SharedBuffer.Insert 6;
                SharedBuffer.Remove; SharedBuffer.Insert 7] in
  let results := [SharedBuffer.Inserted true; SharedBuffer.Inserted true;
                  SharedBuffer.Inserted false; SharedBuffer.Removed (Some 4);
                  SharedBuffer.Inserted true] in
  let self' := SharedBuffer.mk (Queue.mk 2 [5; 7]) 1 0 2 3 1 in
  [] ++ accepted calls results = delivered results ++ [5; 7].
Proof.
  intros self calls results self'.
  apply (items_conserved self self' calls results). reflexivity.
Defined.

(** X2 (the counters count successes): after any sequence of calls, from
    any state, [produced_count] has grown by the number of inserts that
    returned [True], [consumed_count] by the number of removes that
    returned an item, and the buffer size by the difference of the two. *)
Theorem counters_count_successes (self self' : SharedBuffer.t)
    (calls : list SharedBuffer.call) (results : list SharedBuffer.result) :
  SharedBuffer.run self calls = Returns (self', results) →
  SharedBuffer.produced_count self'
    = SharedBuffer.produced_count self + Z.of_nat (length (accepted calls results)) ∧
  SharedBuffer.consumed_count self'
    = SharedBuffer.consumed_count self + Z.of_nat (length (delivered results)) ∧
  SharedBuffer.get_size self'
    = SharedBuffer.get_size self + Z.of_nat (length (accepted calls results))
      - Z.of_nat (length (delivered results)).
Proof.
  revert self self' results.
  induction calls as [|c calls IH]; intros self self' results.
  - intros [= <- <-]. simpl. lia.
  - intros (s1 & r & rs & -> & Hc & Hrun)%run_cons_inv.
    apply perform_effect in Hc as (Hq1 & Hp1 & Hc1).
    destruct (IH _ _ _ Hrun) as (Hp2 & Hc2 & Hs2).
    apply (f_equal length) in Hq1. rewrite !length_app in Hq1.
    rewrite accepted_cons, delivered_cons, !length_app.
    unfold SharedBuffer.get_size, Queue.qsize in *. lia.
Qed.

Lemma counters_count_successes_witness :
  let self := SharedBuffer.mk (Queue.mk 2 []) 1 2 0 0 0 in
  let calls := [SharedBuffer.Insert 4; SharedBuffer.Insert 5; SharedBuffer.Insert 6;
                SharedBuffer.Remove; SharedBuffer.Insert 7] in
  let results := [SharedBuffer.Inserted true; SharedBuffer.Inserted true;
                  SharedBuffer.Inserted false; SharedBuffer.Removed (Some 4);
                  SharedBuffer.Inserted true] in
  let self' := SharedBuffer.mk (Queue.mk 2 [5; 7]) 1 0 2 3 1 in
  SharedBuffer.produced_count self' = 0 + Z.of_nat (length (accepted calls results)) ∧
  SharedBuffer.consumed_count self' = 0 + Z.of_nat (length (delivered results)) ∧
  SharedBuffer.get_size self'
    = SharedBuffer.get_size self + Z.of_nat (length (accepted calls results))
      - Z.of_nat (length (delivered results)).
Proof.
  intros self calls results self'.
  apply (counters_count_successes self self' calls results). reflexivity.
Defined.

(** X3 ([is_full] and [is_empty] tell what the next call does): on a
    buffer built with a capacity of at least 1, after any sequence of
    calls, [insert] returns [True] exactly when [is_full()] is [False],
    [remove] returns an item exactly when [is_empty()] is [False] (and
    then the item at the front), and [get_size()] is the number of
    filled-slot permits while the empty-slot permits are the free room. *)
Theorem observers_predict_calls (size : Z) (self self' : SharedBuffer.t)
    (calls : list SharedBuffer.call) (results : list SharedBuffer.result) :
  1 ≤ size →
  SharedBuffer.__init__ size = Some self →
  SharedBuffer.run self calls = Returns (self', results) →
  (∀ item, ∃ next,
     SharedBuffer.insert self' item = Returns (next, negb (SharedBuffer.is_full self'))) ∧
  (∃ next,
     SharedBuffer.remove self'
     = Returns (next, if SharedBuffer.is_empty self' then None
                      else head (Queue.queue (SharedBuffer.buffer self')))) ∧
  (SharedBuffer.is_empty self' = false →
   is_Some (head (Queue.queue (SharedBuffer.buffer self')))) ∧
  SharedBuffer.get_size self' = SharedBuffer.full self' ∧
  SharedBuffer.empty self' = size - SharedBuffer.get_size self'.
Proof.
  intros Hsize Hinit Hrun.
  destruct (run_settled size self calls (init_settled _ _ Hinit))
    as (s & rs & Hrun' & Hs).
  rewrite Hrun in Hrun'. injection Hrun' as <- <-.
  destruct Hs as (Hmax & Hmutex & He & Hc & Hsum & Hfull & Hcount).
  destruct self' as [q m e f np nc].
  unfold SharedBuffer.get_size, SharedBuffer.is_full, SharedBuffer.is_empty in *.
  simpl in *. subst m.
  split_and!.
  - intros item. destruct (Queue.full q) eqn:Hq.
    + unfold Queue.full in Hq. apply andb_true_iff in Hq as [_ Hq%Z.leb_le].
      assert (e = 0) as -> by lia. by eexists.
    + rewrite insert_ok; [by eexists|..|done]; [|done].
      apply full_false_iff in Hq. lia.
  - destruct q as [maxsize [|item rest]].
    + assert (f = 0) as -> by (unfold Queue.qsize in Hfull; simpl in Hfull; lia).
      by eexists.
    + rewrite remove_ok; [|unfold Queue.qsize in Hfull; simpl in Hfull; lia|done].
      unfold Queue.empty, Queue.qsize. simpl. by eexists.
  - destruct q as [maxsize [|item rest]]; [done|]. by eexists.
  - lia.
  - lia.
Qed.

Lemma observers_predict_calls_witness :
  let self' := SharedBuffer.mk (Queue.mk 1 [9]) 1 0 1 1 0 in
  (∀ item, ∃ next,
     SharedBuffer.insert self' item = Returns (next, negb (SharedBuffer.is_full self'))) ∧
  (∃ next,
     SharedBuffer.remove self'
     = Returns (next, if SharedBuffer.is_empty self' then None
                      else head (Queue.queue (SharedBuffer.buffer self')))) ∧
  (SharedBuffer.is_empty self' = false →
   is_Some (head (Queue.queue (SharedBuffer.buffer self')))) ∧
  SharedBuffer.get_size self' = SharedBuffer.full self' ∧
  SharedBuffer.empty self' = 1 - SharedBuffer.get_size self'.
Proof.
  intros self'.
  apply (observers_predict_calls 1 (SharedBuffer.mk (Queue.mk 1 []) 1 1 0 0 0) self'
           [SharedBuffer.Insert 9] [SharedBuffer.Inserted true]);
    [lia | reflexivity | reflexivity].
Defined.

(** X4 (a buffer of size 0 accepts nothing): [SharedBuffer(0)] can be
    built, and every call on it times out and leaves it as built, however
    many are made; yet [is_full()] answers [False] throughout, because its
    queue has no bound.  A negative size cannot be built at all. *)
Theorem size_zero_buffer (self : SharedBuffer.t) (calls : list SharedBuffer.call) :
  SharedBuffer.__init__ 0 = Some self →
  SharedBuffer.run self calls = Returns (self, map timed_out calls) ∧
  SharedBuffer.is_full self = false ∧
  SharedBuffer.is_empty self = true ∧
  (∀ size, size < 0 → SharedBuffer.__init__ size = None).
Proof.
  intros [_ ->]%init_Some. split_and!.
  - set (self := SharedBuffer.mk _ _ _ _ _ _).
    assert (∀ c, SharedBuffer.perform self c = Returns (self, timed_out c)) as Hcall
      by (by intros []).
    induction calls as [|c calls IH]; [done|].
    cbn [SharedBuffer.run map]. by rewrite Hcall, IH.
  - done.
  - done.
  - intros size Hneg. destruct (SharedBuffer.__init__ size) as [s|] eqn:E; [|done].
    apply init_Some in E as [? _]. lia.
Qed.

Lemma size_zero_buffer_witness :
  let self := SharedBuffer.mk (Queue.mk 0 []) 1 0 0 0 0 in
  SharedBuffer.run self [SharedBuffer.Insert 1; SharedBuffer.Remove]
  = Returns (self, [SharedBuffer.Inserted false; SharedBuffer.Removed None]) ∧
  SharedBuffer.is_full self = false.
Proof.
  intros self.
  destruct (size_zero_buffer self [SharedBuffer.Insert 1; SharedBuffer.Remove])
    as (Hrun & Hfull & _); [reflexivity|].
  split; [exact Hrun | exact Hfull].
Defined.

(** ** [SharedBuffer] threads: exclusion and liveness *)

(** X5 (mutual exclusion, and nobody gets stuck): however the threads of
    a [SharedBuffer] interleave, at most one of them is between
    [mutex.acquire] and [mutex.release], and every thread can always take a
    next step: start a call, take a permit or time out, or run the
    statement it is at; in particular [buffer.put] and [buffer.get] inside
    the mutex never have to wait. *)
Theorem mutex_excludes_and_no_thread_stuck (size : Z) (n : nat) (σ0 σ : Local.system)
    (schedule : list (nat * Local.action)) :
  Local.boot size n = Some σ0 →
  Local.exec σ0 schedule = Some σ →
  tally Local.in_mutex (Local.threads σ) ≤ 1 ∧
  (∀ i at_, Local.threads σ !! i = Some at_ → ∃ a, is_Some (Local.fire σ i a)) ∧
  (∀ i item, Local.threads σ !! i = Some (Local.Insert_put item) →
             is_Some (Local.fire σ i Local.Proceed)) ∧
  (∀ i, Local.threads σ !! i = Some Local.Remove_get →
        is_Some (Local.fire σ i Local.Proceed)).
Proof.
  intros Hboot Hexec.
  pose proof (exec_invariant size schedule σ0 σ Hexec (boot_invariant _ _ _ Hboot)) as Hinv.
  pose proof Hinv as (Hmax & (He & Hf & Hm & Hc) & Hcap & Hfull & Hmutex & _).
  destruct local_weights_nonneg as (Hhe & Hof & Hhf & Hoe & _).
  pose proof (tally_nonneg Local.owes_empty (Local.threads σ) Hoe).
  pose proof (tally_nonneg Local.owes_full (Local.threads σ) Hof).
  split_and!.
  - lia.
  - intros i at_ Hi. by eapply local_progress.
  - intros i item Hi.
    pose proof (tally_lookup _ _ _ _ Hhe Hi) as Hle. simpl in Hle.
    unfold Local.fire. rewrite Hi. simpl.
    unfold SharedBuffer.get_size in *.
    rewrite put_not_full by (apply full_false_iff; lia). by eexists.
  - intros i Hi.
    pose proof (tally_lookup _ _ _ _ Hhf Hi) as Hle. simpl in Hle.
    unfold Local.fire. rewrite Hi. simpl.
    destruct (Queue.get _) as [[??]|] eqn:E; [by eexists|].
    apply get_None in E. unfold SharedBuffer.get_size in *. lia.
Qed.

Lemma mutex_excludes_and_no_thread_stuck_witness :
  let σ0 := Local.System (SharedBuffer.mk (Queue.mk 1 []) 1 1 0 0 0)
                         [Local.Idle; Local.Idle] in
  let schedule := [(0%nat, Local.Start (SharedBuffer.Insert 3)); (0%nat, Local.Proceed);
                   (0%nat, Local.Proceed); (1%nat, Local.Start SharedBuffer.Remove)] in
  let σ := Local.System (SharedBuffer.mk (Queue.mk 1 []) 0 0 0 0 0)
                        [Local.Insert_put 3; Local.Remove_full] in
  tally Local.in_mutex (Local.threads σ) ≤ 1 ∧
  is_Some (Local.fire σ 0 Local.Proceed).
Proof.
  intros σ0 schedule σ.
  destruct (mutex_excludes_and_no_thread_stuck 1 2 σ0 σ schedule)
    as (Hex & _ & Hput & _); [reflexivity | reflexivity |].
  split; [exact Hex|]. by apply (Hput 0%nat 3).
Defined.

(** X6 (the counters under concurrency): however the threads interleave,
    [consumed_count] never exceeds [produced_count], not even in the middle
    of calls; and whenever no call is in progress the mutex is free, the
    filled-slot permits and [produced_count - consumed_count] both equal
    the buffer size, and the empty-slot permits are the free room. *)
Theorem counters_under_interleaving (size : Z) (n : nat) (σ0 σ : Local.system)
    (schedule : list (nat * Local.action)) :
  Local.boot size n = Some σ0 →
  Local.exec σ0 schedule = Some σ →
  SharedBuffer.consumed_count (Local.shared σ)
    ≤ SharedBuffer.produced_count (Local.shared σ) ∧
  (Local.quiescent σ →
   SharedBuffer.mutex (Local.shared σ) = 1 ∧
   SharedBuffer.full (Local.shared σ) = SharedBuffer.get_size (Local.shared σ) ∧
   SharedBuffer.empty (Local.shared σ) = size - SharedBuffer.get_size (Local.shared σ) ∧
   SharedBuffer.produced_count (Local.shared σ) - SharedBuffer.consumed_count (Local.shared σ)
     = SharedBuffer.get_size (Local.shared σ)).
Proof.
  intros Hboot Hexec.
  pose proof (exec_invariant size schedule σ0 σ Hexec (boot_invariant _ _ _ Hboot))
    as (Hmax & (He & Hf & Hm & Hc) & Hcap & Hfull & Hmutex & Hcount).
  destruct local_weights_nonneg as (Hhe & Hof & Hhf & Hoe & Him & Hup & Hug).
  split.
  - pose proof (tally_nonneg Local.holds_full (Local.threads σ) Hhf).
    pose proof (tally_nonneg Local.uncounted_get (Local.threads σ) Hug).
    (* a thread that has put and not yet counted is one that owes a filled slot *)
    assert (tally Local.uncounted_put (Local.threads σ)
            ≤ tally Local.owes_full (Local.threads σ)) as Hle.
    { generalize (Local.threads σ). intros l.
      induction l as [|p l IH]; simpl; [lia|]. destruct p; simpl; lia. }
    lia.
  - intros Hq.
    rewrite !(tally_at_rest _ _ ) in * by (done || by intros []). lia.
Qed.

Lemma counters_under_interleaving_witness :
  let σ0 := Local.System (SharedBuffer.mk (Queue.mk 1 []) 1 1 0 0 0)
                         [Local.Idle; Local.Idle] in
  let schedule := [(0%nat, Local.Start (SharedBuffer.Insert 3)); (0%nat, Local.Proceed);
                   (0%nat, Local.Proceed); (0%nat, Local.Proceed)] in
  let σ := Local.System (SharedBuffer.mk (Queue.mk 1 [3]) 0 0 0 0 0)
                        [Local.Insert_count; Local.Idle] in
  SharedBuffer.consumed_count (Local.shared σ) ≤ SharedBuffer.produced_count (Local.shared σ).
Proof.
  intros σ0 schedule σ.
  apply (counters_under_interleaving 1 2 σ0 σ schedule); reflexivity.
Defined.

(** ** [SharedBufferServer]: replies and status *)

Section ServerMore.
Import SharedBufferServer.
Variable str : json → string.
Variable loads : string → option json.

Lemma succeeded_consumed item size : Net.succeeded (consumed_response str item size) = true.
Proof.
  unfold Net.succeeded.
  by destruct (consumed_response_lookup str item size) as [-> _].
Qed.

Lemma carries_item_consumed item size : carries_item (consumed_response str item size) = true.
Proof.
  unfold carries_item.
  by destruct (consumed_response_lookup str item size) as (_ & -> & _).
Qed.

Lemma carries_item_produced item size : carries_item (produced_response str item size) = false.
Proof. unfold carries_item, produced_response. by simplify_map_eq. Qed.

(** X7 (only a success reply changes the server): whatever bytes a
    connection delivers, if [handle_client] answers with anything but a
    success reply (an error reply, or no reply at all for empty or
    undecodable data) the server object is exactly as before; a success
    reply comes with exactly one item appended at the back (produce) or
    taken from the front and returned (consume); nothing but the queue
    contents ever changes. *)
Theorem only_success_changes_server (self self' : t) (data : string)
    (reply : option (gmap string json)) :
  handle_client str loads self data = Returns (self', reply) →
  self' = set_buffer self (Queue.mk (Queue.maxsize (buffer self)) (Queue.queue (buffer self'))) ∧
  match reply with
  | None => self' = self
  | Some response =>
      if Net.succeeded response then
        if carries_item response then
          ∃ item, response !! "item" = Some item ∧
                  Queue.queue (buffer self) = item :: Queue.queue (buffer self')
        else
          ∃ item, Queue.queue (buffer self') = Queue.queue (buffer self) ++ [item]
      else self' = self
  end.
Proof.
  assert (∀ s : t, s = set_buffer s (Queue.mk (Queue.maxsize (buffer s)) (Queue.queue (buffer s))))
    as Hsame by (by intros [? ? ? [] ? ? ?]).
  unfold handle_client.
  destruct data as [|a data']; [intros [= <- <-]; by split|].
  destruct (loads _) as [[| | | | |request]|]; try (intros [= <- <-]; by split).
  destruct (is_type _ "producer").
  { unfold handle_producer. destruct (lock self) eqn:Hlock; [done|].
    destruct (Queue.full (buffer self)) eqn:Hfull.
    - intros [= <- <-]. by split.
    - rewrite put_not_full by done. intros [= <- <-]. simpl. split; [done|].
      rewrite succeeded_produced, carries_item_produced. by eexists. }
  destruct (is_type _ "consumer").
  { unfold handle_consumer. destruct (lock self) eqn:Hlock; [done|].
    destruct (Queue.empty (buffer self)) eqn:Hempty.
    - intros [= <- <-]. by split.
    - destruct (Queue.get (buffer self)) as [[item q]|] eqn:Hget; [|done].
      apply get_Some in Hget as (Hq & Hmax & _).
      intros [= <- <-]. simpl. split.
      + destruct q; simpl in *. by rewrite Hmax.
      + rewrite succeeded_consumed, carries_item_consumed.
        exists item. split; [apply consumed_response_lookup|done]. }
  intros [= <- <-]. by split.
Qed.

Lemma handle_client_buffer_size self data self' reply :
  handle_client str loads self data = Returns (self', reply) →
  buffer_size self' = buffer_size self.
Proof.
  unfold handle_client.
  destruct data as [|a data']; [by intros [= <- <-]|].
  destruct (loads _) as [[| | | | |request]|]; try by intros [= <- <-].
  destruct (is_type _ "producer").
  { unfold handle_producer. destruct (lock self); [done|].
    destruct (Queue.full (buffer self)) eqn:Hfull; [by intros [= <- <-]|].
    rewrite put_not_full by done. by intros [= <- <-]. }
  destruct (is_type _ "consumer").
  { unfold handle_consumer. destruct (lock self); [done|].
    destruct (Queue.empty (buffer self)); [by intros [= <- <-]|].
    destruct (Queue.get (buffer self)) as [[item q]|]; [|done].
    by intros [= <- <-]. }
  by intros [= <- <-].
Qed.

Lemma buffer_size_kept connections : ∀ self self' replies,
  serve str loads self connections = Returns (self', replies) →
  buffer_size self' = buffer_size self.
Proof.
  induction connections as [|data rest IH]; intros self self' replies; simpl.
  - by intros [= <- <-].
  - destruct (handle_client str loads self data) as [[s1 r]|] eqn:H1; [|done].
    destruct (serve str loads s1 rest) as [[s2 rs]|] eqn:H2; [|done].
    intros [= <- <-]. rewrite (IH _ _ _ H2).
    by apply handle_client_buffer_size in H1.
Qed.

(** X8 ([get_buffer_status] tells what the next request gets): on a
    server built with a capacity of at least 1, after any sequence of
    connections, the status is returned at once and reports the capacity
    and the queue length; [is_full] is true exactly when the queue length
    equals the capacity, which is exactly when a produce request would be
    refused; [is_empty] is true exactly when the length is 0, which is
    exactly when a consume request would be refused; the two are never
    both true. *)
Theorem status_predicts_replies (host : string) (port capacity : Z)
    (connections : list string) (self : t) (replies : list (option (gmap string json)))
    (request : gmap string json) :
  1 ≤ capacity →
  serve str loads (__init__ host port capacity) connections = Returns (self, replies) →
  ∃ is_full is_empty next_p reply_p next_c reply_c,
    get_buffer_status self
    = Returns {[ "size" := JNum (Queue.qsize (buffer self));
                 "max_size" := JNum capacity;
                 "is_full" := JBool is_full;
                 "is_empty" := JBool is_empty ]} ∧
    (is_full = true ↔ Queue.qsize (buffer self) = capacity) ∧
    (is_empty = true ↔ Queue.qsize (buffer self) = 0) ∧
    is_full && is_empty = false ∧
    handle_producer str self request = Returns (next_p, reply_p) ∧
    Net.succeeded reply_p = negb is_full ∧
    handle_consumer str self request = Returns (next_c, reply_c) ∧
    Net.succeeded reply_c = negb is_empty.
Proof.
  intros Hcap Hserve.
  pose proof (buffer_size_kept _ _ _ _ Hserve) as Hsize. simpl in Hsize.
  destruct (serve_serving str loads capacity connections (__init__ host port capacity) Hcap)
    as (s & rs & Hserve' & (Hmax & Hlock & Hle)).
  { unfold serving, Queue.qsize. simpl. split_and!; [done..|lia]. }
  rewrite Hserve in Hserve'. injection Hserve' as <- <-.
  pose proof (qsize_nonneg (buffer self)) as Hnonneg.
  assert (Queue.full (buffer self) = true ↔ Queue.qsize (buffer self) = capacity) as Hfull.
  { unfold Queue.full. rewrite andb_true_iff, Z.ltb_lt, Z.leb_le. lia. }
  assert (Queue.empty (buffer self) = true ↔ Queue.qsize (buffer self) = 0) as Hempty.
  { unfold Queue.empty. by rewrite Z.eqb_eq. }
  exists (Queue.full (buffer self)), (Queue.empty (buffer self)).
  assert (∃ next_p reply_p, handle_producer str self request = Returns (next_p, reply_p) ∧
                            Net.succeeded reply_p = negb (Queue.full (buffer self)))
    as (next_p & reply_p & Hp & Hsp).
  { destruct (Queue.full (buffer self)) eqn:E.
    - rewrite handle_producer_full by done. by eexists _, _.
    - rewrite handle_producer_room by done. eexists _, _. split; [done|].
      apply succeeded_produced. }
  assert (∃ next_c reply_c, handle_consumer str self request = Returns (next_c, reply_c) ∧
                            Net.succeeded reply_c = negb (Queue.empty (buffer self)))
    as (next_c & reply_c & Hc & Hsc).
  { destruct (Queue.queue (buffer self)) as [|item rest] eqn:E.
    - assert (Queue.empty (buffer self) = true) as Het by (by apply empty_true_iff).
      rewrite handle_consumer_empty by done. rewrite Het. by eexists _, _.
    - assert (Queue.empty (buffer self) = false) as Hef.
      { apply not_true_iff_false. rewrite empty_true_iff, E. done. }
      rewrite (handle_consumer_item str self request item rest) by done.
      rewrite Hef. eexists _, _. split; [done|]. apply succeeded_consumed. }
  exists next_p, reply_p, next_c, reply_c.
  split_and!; try done.
  - unfold get_buffer_status. by rewrite Hlock, Hsize.
  - destruct (Queue.full (buffer self)) eqn:E1, (Queue.empty (buffer self)) eqn:E2; try done.
    destruct Hfull as [Hf _], Hempty as [He _]. specialize (Hf eq_refl).
    specialize (He eq_refl). lia.
Qed.

End ServerMore.

Lemma only_success_changes_server_witness :
  let str := λ _ : json, "a" in
  let loads := λ _ : string,
    Some (JObj {[ "type" := JStr "consumer"; "id" := JStr "1" ]}) in
  let self := SharedBufferServer.mk "localhost" 5555 2 (Queue.mk 2 [JStr "a"; JStr "b"])
                false 0 0 in
  let self' := SharedBufferServer.mk "localhost" 5555 2 (Queue.mk 2 [JStr "b"]) false 0 0 in
  ∃ item, SharedBufferServer.consumed_response str (JStr "a") 1 !! "item" = Some item ∧
          [JStr "a"; JStr "b"] = item :: [JStr "b"].
Proof.
  intros str loads self self'.
  pose proof (only_success_changes_server str loads self self' "request"
                (Some (SharedBufferServer.consumed_response str (JStr "a") 1)))
    as [_ H]; [vm_compute; reflexivity|].
  rewrite succeeded_consumed, carries_item_consumed in H. exact H.
Defined.

Lemma status_predicts_replies_witness :
  let str := λ _ : json, "a" in
  let loads := λ _ : string,
    Some (JObj {[ "type" := JStr "producer"; "item" := JStr "a" ]}) in
  ∃ is_full is_empty,
    get_buffer_status
      (SharedBufferServer.mk "localhost" 5555 1 (Queue.mk 1 [JStr "a"]) false 0 0)
    = Returns {[ "size" := JNum 1; "max_size" := JNum 1;
                 "is_full" := JBool is_full; "is_empty" := JBool is_empty ]} ∧
    (is_full = true ↔ 1 = 1) ∧ is_full && is_empty = false.
Proof.
  intros str loads.
  destruct (status_predicts_replies str loads "localhost" 5555 1 ["first"; "second"]
              (SharedBufferServer.mk "localhost" 5555 1 (Queue.mk 1 [JStr "a"]) false 0 0)
              [Some (SharedBufferServer.produced_response str (JStr "a") 1);
               Some SharedBufferServer.buffer_full_response] ∅)
    as (f & e & _ & _ & _ & _ & Hstatus & Hf & _ & Hfe & _);
    [lia | vm_compute; reflexivity |].
  exists f, e. split; [exact Hstatus|]. split; [exact Hf | exact Hfe].
Defined.

(** ** [SharedBufferServer] threads: any mix of connections *)

Section NetMore.
Import SharedBufferServer.
Variable str : json → string.
Variable loads : string → option json.

Lemma remaining_start connections :
  tally Net.remaining (map Net.Accepted connections) = 7 * Z.of_nat (length connections).
Proof. induction connections as [|d l IH]; simpl; [done|]. rewrite IH. lia. Qed.

(** X9 (the threaded server is safe and live): for any capacity and any
    connections, whatever they send and however their threads interleave,
    at most one thread is inside [with self.lock], a thread about to [put]
    or [get] never has to wait, some thread can move as long as a
    connection is open, and no run is longer than 7 steps per connection:
    every connection gets closed. *)
Theorem server_threads_safe_and_live (host : string) (port capacity : Z)
    (connections : list string) (schedule : list nat) (σ : Net.system) :
  Net.exec str loads (Net.start (__init__ host port capacity) connections) schedule = Some σ →
  tally Net.in_lock (Net.threads σ) ≤ 1 ∧
  (∀ i item, Net.threads σ !! i = Some (Net.Producer_put item) →
             is_Some (Net.fire str loads σ i)) ∧
  (∀ i, Net.threads σ !! i = Some Net.Consumer_get → is_Some (Net.fire str loads σ i)) ∧
  (¬ Net.all_closed σ → ∃ i, is_Some (Net.fire str loads σ i)) ∧
  Z.of_nat (length schedule) ≤ 7 * Z.of_nat (length connections).
Proof.
  intros Hexec.
  pose proof (net_exec_invariant str loads capacity schedule _ σ Hexec
                (start_invariant host port capacity connections)) as Hnet.
  pose proof Hnet as (_ & Hlock & _ & Hput & Hget).
  pose proof (exec_remaining str loads schedule _ σ Hexec) as Hrem.
  pose proof (tally_nonneg Net.remaining (Net.threads σ) remaining_nonneg).
  split_and!.
  - rewrite Hlock. destruct (lock _); lia.
  - intros i item Hi. unfold Net.fire. rewrite Hi. simpl.
    rewrite put_not_full by eauto. by eexists.
  - intros i Hi. unfold Net.fire. rewrite Hi. simpl.
    destruct (Queue.get _) as [[??]|] eqn:E; [by eexists|].
    apply get_None in E. specialize (Hget i Hi).
    unfold Queue.empty in Hget. by apply Z.eqb_neq in Hget.
  - by apply (net_progress str loads capacity).
  - unfold Net.start in Hrem. simpl in Hrem. rewrite remaining_start in Hrem. lia.
Qed.

Lemma has_put_got_start connections :
  tally has_put (map Net.Accepted connections) = 0 ∧
  tally has_got (map Net.Accepted connections) = 0.
Proof. split; apply tally_zero, Forall_fmap, Forall_true; done. Qed.

Lemma traffic_fire σ i σ' :
  Net.fire str loads σ i = Some σ' → traffic_invariant σ → traffic_invariant σ'.
Proof.
  unfold Net.fire, traffic_invariant. destruct σ as [self threads]. simpl.
  destruct (threads !! i) as [p|] eqn:Hi; [|done]. simpl.
  destruct (Net.step str loads self p) as [[self' p']|] eqn:Hstep; [|done]. simpl.
  intros [= <-]. simpl. rewrite !(tally_insert _ _ _ _ p' Hi).
  destruct p; simpl in Hstep.
  - assert (self' = self ∧ has_put p' = 0 ∧ has_got p' = 0) as (-> & -> & ->).
    { destruct data; [by simplify_eq|].
      destruct (loads _) as [[| | | | |request]|]; try by simplify_eq.
      destruct (is_type _ "producer"); [by simplify_eq|].
      destruct (is_type _ "consumer"); by simplify_eq. }
    simpl. lia.
  - destruct (lock self); simplify_eq/=. lia.
  - destruct (Queue.full _); injection Hstep as <- <-.
    + assert (has_put (Net.Unlock buffer_full_response) = 0 ∧
              has_got (Net.Unlock buffer_full_response) = 0) as [-> ->] by done.
      simpl. lia.
    + simpl. lia.
  - destruct (Queue.put _ _) as [q|] eqn:Hq; [|done].
    apply put_Some in Hq as (_ & -> & Hq). injection Hstep as <- <-. simpl in *. lia.
  - injection Hstep as <- <-. simpl.
    rewrite succeeded_produced, carries_item_produced. simpl. lia.
  - destruct (lock self); simplify_eq/=. lia.
  - destruct (Queue.empty _); injection Hstep as <- <-.
    + assert (has_put (Net.Unlock buffer_empty_response) = 0 ∧
              has_got (Net.Unlock buffer_empty_response) = 0) as [-> ->] by done.
      simpl. lia.
    + simpl. lia.
  - destruct (Queue.get _) as [[item q]|] eqn:Hq; [|done].
    apply get_Some in Hq as (_ & _ & Hq). injection Hstep as <- <-. simpl in *. lia.
  - injection Hstep as <- <-. simpl.
    rewrite succeeded_consumed, carries_item_consumed. simpl. lia.
  - injection Hstep as <- <-. simpl. lia.
  - injection Hstep as <- <-. simpl. lia.
  - done.
Qed.

(** X10 (no item lost or duplicated between threads): start the server
    with an empty queue and any connections; however their threads
    interleave, the queue length is the number of produces that have put
    minus the number of consumes that have got.  So once every connection
    is closed, the items left are the success replies to producers minus
    the success replies to consumers. *)
Theorem traffic_accounted (host : string) (port capacity : Z)
    (connections : list string) (schedule : list nat) (σ : Net.system) :
  Net.exec str loads (Net.start (__init__ host port capacity) connections) schedule = Some σ →
  Queue.qsize (buffer (Net.shared σ))
  = tally has_put (Net.threads σ) - tally has_got (Net.threads σ).
Proof.
  assert (∀ σ0, traffic_invariant σ0 →
                Net.exec str loads σ0 schedule = Some σ → traffic_invariant σ) as Hkeep.
  { induction schedule as [|i schedule IH]; intros σ0 Hinv; simpl.
    - by intros [= <-].
    - destruct (Net.fire str loads σ0 i) as [σ1|] eqn:Hfire; [|done]. simpl.
      apply IH. by eapply traffic_fire. }
  apply Hkeep. unfold traffic_invariant, Net.start. simpl.
  destruct (has_put_got_start connections) as [-> ->]. done.
Qed.

End NetMore.

(** A producer and a consumer racing on an empty server of capacity 1:
    the consumer takes the lock first and is refused; the producer gets the
    lock once the consumer has left the [with] block, and puts its item. *)
Lemma server_threads_safe_and_live_witness :
  let str := λ _ : json, "a" in
  let loads := λ data : string,
    Some (JObj {[ "type" := JStr data; "item" := JStr "a" ]}) in
  ∃ σ,
    Net.exec str loads
      (Net.start (SharedBufferServer.__init__ "localhost" 5555 1) ["producer"; "consumer"])
      [0; 1; 1; 1; 1; 0; 0; 0; 0; 0; 1; 0]%nat = Some σ ∧
    Net.all_closed σ ∧
    Queue.queue (SharedBufferServer.buffer (Net.shared σ)) = [JStr "a"] ∧
    tally Net.in_lock (Net.threads σ) ≤ 1.
Proof.
  intros str loads. eexists. split; [vm_compute; reflexivity|].
  split; [repeat constructor|]. split; [reflexivity|].
  eapply (server_threads_safe_and_live str loads "localhost" 5555 1
            ["producer"; "consumer"] [0; 1; 1; 1; 1; 0; 0; 0; 0; 0; 1; 0]%nat).
  vm_compute. reflexivity.
Defined.

Lemma traffic_accounted_witness :
  let str := λ _ : json, "a" in
  let loads := λ data : string,
    Some (JObj {[ "type" := JStr data; "item" := JStr "a" ]}) in
  ∃ σ,
    Net.exec str loads
      (Net.start (SharedBufferServer.__init__ "localhost" 5555 1) ["producer"; "consumer"])
      [0; 1; 1; 1; 1; 0; 0; 0; 0; 0; 1; 0]%nat = Some σ ∧
    Queue.qsize (SharedBufferServer.buffer (Net.shared σ))
    = tally has_put (Net.threads σ) - tally has_got (Net.threads σ).
Proof.
  intros str loads. eexists. split; [vm_compute; reflexivity|].
  eapply (traffic_accounted str loads "localhost" 5555 1
            ["producer"; "consumer"] [0; 1; 1; 1; 1; 0; 0; 0; 0; 0; 1; 0]%nat).
  vm_compute. reflexivity.
Defined.

(** ** The remote clients, whatever the server answers *)

Section Clients.
Variable World : Type.
Variable exchange : gmap string json → World → option json * World.
Variables producer_id consumer_id : string.

Abbreviation produce' := (producer_client.produce World exchange producer_id).
Abbreviation consume' := (consumer_client.consume World exchange consumer_id).

(** The producer's inner loop with [k] retries left: it returns, having
    asked at most [k] times, at least once if [k] is not 0, and [k] times
    if it ends without success. *)
Lemma producer_retry_loop_bounded item max_retries :
  ∀ (k fuel : nat) (retries : Z) (w : World),
    k = Z.to_nat (max_retries - retries) → (k ≤ fuel)%nat →
    ∃ trace success w' c,
      producer_client.retry_loop World exchange producer_id fuel item max_retries
        false retries w = Some (trace, success, w') ∧
      producer_client.attempts trace = replicate c item ∧
      (c ≤ k)%nat ∧ (k ≠ 0%nat → c ≠ 0%nat) ∧ (success = false → c = k).
Proof.
  induction k as [|k IH]; intros fuel retries w Hk Hfuel.
  - exists [], false, w, 0%nat. split; [|done].
    destruct fuel; simpl; (destruct (Z.ltb_spec retries max_retries); [lia|done]).
  - destruct fuel as [|fuel]; [lia|]. simpl.
    destruct (Z.ltb_spec retries max_retries); [|lia]. simpl.
    destruct (produce' item w) as [[] w1].
    + destruct fuel; simpl; exists [producer_client.Produce item true], true, w1, 1%nat;
        (split; [done|split; [done|split; [lia|done]]]).
    + destruct (Z.ltb_spec (retries + 1) max_retries).
      * destruct (IH fuel (retries + 1) w1) as (trace & s & w' & c & -> & Ha & Hc & Hne & Hs);
          [lia..|].
        simpl. exists (producer_client.Produce item false
                         :: producer_client.Retrying (retries + 1) :: trace), s, w', (S c).
        split; [done|]. simpl. rewrite Ha. split; [done|]. split; [lia|]. split; [done|].
        intros ->. by rewrite Hs.
      * assert (k = 0%nat) as -> by lia.
        destruct (IH fuel (retries + 1) w1) as (trace & s & w' & c & -> & Ha & Hc & Hne & Hs);
          [lia..|].
        assert (c = 0%nat) as -> by lia.
        simpl. exists (producer_client.Produce item false
                         :: producer_client.Skipping item :: trace), s, w', 1%nat.
        split; [done|]. simpl. rewrite Ha. split; [done|]. split; [lia|]. split; [done|].
        done.
Qed.

(** X11 (the producer always gets through its list): whatever the
    replies, [continuous_production] returns (fuel for [max_retries]
    iterations of the retry loop is enough), having made for each item in
    turn at least one request when [max_retries >= 1] and never more than
    [max_retries]. *)
Theorem producer_requests_bounded (max_retries : Z) (items : list json) (fuel : nat)
    (w : World) :
  (Z.to_nat max_retries ≤ fuel)%nat →
  ∃ trace w' counts,
    producer_client.continuous_production World exchange producer_id fuel items
      max_retries w = Some (trace, w') ∧
    length counts = length items ∧
    producer_client.attempts trace = concat (zip_with replicate counts items) ∧
    Forall (λ c, (c ≤ Z.to_nat max_retries)%nat ∧ (1 ≤ max_retries → (1 ≤ c)%nat)) counts.
Proof.
  intros Hfuel. revert w. induction items as [|item items IH]; intros w.
  - exists [], w, []. done.
  - simpl.
    destruct (producer_retry_loop_bounded item max_retries (Z.to_nat max_retries) fuel 0 w)
      as (t1 & s & w1 & c & -> & Ha & Hc & Hne & _); [f_equal; lia | done |].
    simpl. destruct (IH w1) as (t2 & w2 & counts & -> & Hlen & Ha2 & Hall). simpl.
    exists (t1 ++ (if s then [producer_client.Interval] else []) ++ t2), w2, (c :: counts).
    split; [done|]. split; [simpl; by rewrite Hlen|]. split.
    + unfold producer_client.attempts in *. rewrite !flat_map_app, Ha, Ha2.
      simpl. by destruct s.
    + constructor; [|done]. split; [done|]. intros Hpos.
      destruct c; [|lia]. destruct Hne; [lia|done].
Qed.

(** X12 (a producer told not to retry sends nothing): with
    [max_retries <= 0] the retry loop is never entered, so no request is
    made for any item, nothing is reported as skipped, and the method
    returns with the world untouched. *)
Theorem producer_sends_nothing_without_retries (max_retries : Z) (items : list json)
    (fuel : nat) (w : World) :
  max_retries ≤ 0 →
  producer_client.continuous_production World exchange producer_id fuel items
    max_retries w = Some ([], w).
Proof.
  intros Hzero. induction items as [|item items IH]; [done|]. simpl.
  assert (producer_client.retry_loop World exchange producer_id fuel item max_retries
            false 0 w = Some ([], false, w)) as ->.
  { destruct fuel; simpl; (destruct (Z.ltb_spec 0 max_retries); [lia|done]). }
  simpl. by rewrite IH.
Qed.

(** X13 (when every request succeeds): with [max_retries >= 1] and a
    server that accepts everything, each item is sent exactly once, in
    list order, each followed by the pause between productions, and
    nothing is retried or skipped. *)
Theorem producer_all_accepted (max_retries : Z) (items : list json) (fuel : nat)
    (w : World) :
  1 ≤ max_retries → (1 ≤ fuel)%nat →
  (∀ item w, (produce' item w).1 = true) →
  ∃ w',
    producer_client.continuous_production World exchange producer_id fuel items
      max_retries w
    = Some (flat_map (λ item, [producer_client.Produce item true; producer_client.Interval])
                     items, w').
Proof.
  intros Hpos Hfuel Hok. revert w. induction items as [|item items IH]; intros w.
  - by exists w.
  - simpl. destruct fuel as [|fuel]; [lia|]. simpl.
    destruct (Z.ltb_spec 0 max_retries); [|lia]. simpl.
    specialize (Hok item w). destruct (produce' item w) as [ok w1]. simpl in Hok. subst ok.
    assert (producer_client.retry_loop World exchange producer_id fuel item max_retries
              true 0 w1 = Some ([], true, w1)) as -> by (by destruct fuel).
    simpl. destruct (IH w1) as (w' & Hrest). simpl in Hrest. rewrite Hrest. simpl.
    by exists w'.
Qed.

End Clients.

Lemma producer_requests_bounded_witness :
  let exchange := λ (_ : gmap string json) (w : nat),
    (if Nat.even w then Some (JObj {[ "status" := JStr "success" ]}) else @None json, S w) in
  ∃ trace w' counts,
    producer_client.continuous_production nat exchange "1" 2 [JStr "a"; JStr "b"] 2 1%nat
      = Some (trace, w') ∧
    length counts = 2%nat ∧
    producer_client.attempts trace = concat (zip_with replicate counts [JStr "a"; JStr "b"]) ∧
    Forall (λ c, (c ≤ 2)%nat ∧ (1 ≤ 2 → (1 ≤ c)%nat)) counts.
Proof.
  intros exchange.
  apply (producer_requests_bounded nat exchange "1" 2 [JStr "a"; JStr "b"] 2%nat 1%nat).
  simpl. lia.
Defined.

Lemma producer_sends_nothing_without_retries_witness :
  producer_client.continuous_production unit (λ _ w, (@None json, w)) "1" 5
    [JStr "a"; JStr "b"] 0 () = Some ([], ()).
Proof.
  apply (producer_sends_nothing_without_retries unit (λ _ w, (@None json, w)) "1" 0). lia.
Defined.

Lemma producer_all_accepted_witness :
  let exchange := λ (_ : gmap string json) (w : unit),
    (Some (JObj {[ "status" := JStr "success"; "buffer_size" := JNum 1 ]}), w) in
  ∃ w',
    producer_client.continuous_production unit exchange "1" 5 [JStr "a"; JStr "b"] 5 ()
    = Some ([producer_client.Produce (JStr "a") true; producer_client.Interval;
             producer_client.Produce (JStr "b") true; producer_client.Interval], w').
Proof.
  intros exchange.
  apply (producer_all_accepted unit exchange "1" 5 [JStr "a"; JStr "b"] 5%nat ());
    [lia | lia | reflexivity].
Defined.

Section ConsumerClient.
Variable World : Type.
Variable exchange : gmap string json → World → option json * World.
Variable consumer_id : string.

Abbreviation consume' := (consumer_client.consume World exchange consumer_id).

Lemma received_nulls c : received (replicate c JNull) = [].
Proof. induction c as [|c IH]; [done|]. simpl. exact IH. Qed.

(** The consumer's inner loop with [k + 1] retries left: it either
    returns from the method after [k + 1] requests that all came back
    [None], or falls through with an item after at most [k] of those. *)
Lemma consumer_retry_loop_bounded max_retries :
  ∀ (k fuel : nat) (retries : Z) (w : World),
    S k = Z.to_nat (max_retries - retries) → (S k ≤ fuel)%nat →
    ∃ trace how w',
      consumer_client.retry_loop World exchange consumer_id fuel max_retries
        JNull retries w = Some (trace, how, w') ∧
      match how with
      | consumer_client.Return =>
          consumer_client.attempts trace = replicate (S k) JNull ∧
          last trace = Some consumer_client.Stopping
      | consumer_client.Fallthrough item =>
          is_None item = false ∧
          ∃ c, consumer_client.attempts trace = replicate c JNull ++ [item] ∧ (c ≤ k)%nat
      end.
Proof.
  induction k as [|k IH]; intros fuel retries w Hk Hfuel;
    (destruct fuel as [|fuel]; [lia|]); simpl;
    (destruct (Z.ltb_spec retries max_retries); [|lia]); simpl;
    destruct (consume' w) as [item w1]; destruct (is_None item) eqn:Hnone.
  - destruct (Z.ltb_spec (retries + 1) max_retries); [lia|].
    eexists _, _, _. split; [done|]. destruct item; try done.
  - assert (consumer_client.retry_loop World exchange consumer_id fuel max_retries
              item retries w1 = Some ([], consumer_client.Fallthrough item, w1)) as ->.
    { destruct fuel; simpl; by rewrite Hnone. }
    simpl. eexists _, _, _. split; [done|]. split; [done|]. exists 0%nat. split; [|lia].
    simpl. done.
  - destruct item; try done.
    destruct (Z.ltb_spec (retries + 1) max_retries); [|lia].
    destruct (IH fuel (retries + 1) w1) as (trace & how & w' & -> & Hhow); [lia..|].
    simpl. eexists _, _, _. split; [done|]. destruct how as [|item].
    + destruct Hhow as [Ha Hl]. simpl. rewrite Ha. split; [done|].
      destruct trace; [done|]. done.
    + destruct Hhow as (Hitem & c & Ha & Hc). split; [done|]. exists (S c).
      simpl. rewrite Ha. split; [done|lia].
  - assert (consumer_client.retry_loop World exchange consumer_id fuel max_retries
              item retries w1 = Some ([], consumer_client.Fallthrough item, w1)) as ->.
    { destruct fuel; simpl; by rewrite Hnone. }
    simpl. eexists _, _, _. split; [done|]. split; [done|]. exists 0%nat. split; [|lia].
    simpl. done.
Qed.

Lemma consumption_loop_bounded max_retries max_items :
  1 ≤ max_retries →
  ∀ (m fuel : nat) (items_consumed : Z) (w : World),
    m = Z.to_nat (max_items - items_consumed) →
    (m + Z.to_nat max_retries ≤ fuel)%nat →
    ∃ trace n w',
      consumer_client.consumption_loop World exchange consumer_id fuel max_items
        max_retries items_consumed w = Some (trace, n, w') ∧
      n = items_consumed + Z.of_nat (length (received (consumer_client.attempts trace))) ∧
      n ≤ Z.max items_consumed max_items ∧
      (length (consumer_client.attempts trace) ≤ m * Z.to_nat max_retries)%nat ∧
      (n < max_items → last trace = Some consumer_client.Stopping).
Proof.
  intros Hpos. induction m as [|m IH]; intros fuel items_consumed w Hm Hfuel.
  - exists [], items_consumed, w.
    assert (consumer_client.consumption_loop World exchange consumer_id fuel max_items
              max_retries items_consumed w = Some ([], items_consumed, w)) as ->.
    { destruct fuel; simpl; (destruct (Z.ltb_spec items_consumed max_items); [lia|done]). }
    split; [done|]. simpl. split; [lia|]. split; [lia|]. split; [lia|]. lia.
  - destruct fuel as [|fuel]; [lia|]. cbn [consumer_client.consumption_loop].
    destruct (Z.ltb_spec items_consumed max_items); [|lia].
    destruct (consumer_retry_loop_bounded max_retries (Nat.pred (Z.to_nat max_retries))
                (S fuel) 0 w) as (t1 & how & w1 & -> & Hhow); [lia..|].
    replace (S (Nat.pred (Z.to_nat max_retries))) with (Z.to_nat max_retries) in Hhow by lia.
    cbn [mbind option_bind]. destruct how as [|item].
    + destruct Hhow as [Ha Hl]. exists t1, items_consumed, w1.
      split; [done|]. rewrite Ha, received_nulls, length_replicate. simpl.
      split; [lia|]. split; [lia|]. split; [nia|]. done.
    + destruct Hhow as (Hitem & c & Ha & Hc). rewrite Hitem.
      destruct (IH fuel (items_consumed + 1) w1) as (t2 & n & w2 & -> & Hn & Hle & Hlen & Hstop);
        [lia..|].
      cbn [mbind option_bind].
      exists (t1 ++ consumer_client.Consumed (items_consumed + 1) :: t2), n, w2.
      split; [done|].
      assert (consumer_client.attempts
                (t1 ++ consumer_client.Consumed (items_consumed + 1) :: t2)
              = consumer_client.attempts t1 ++ consumer_client.attempts t2) as ->.
      { unfold consumer_client.attempts. by rewrite flat_map_app. }
      rewrite Ha. unfold received at 1. rewrite !flat_map_app. fold (received (replicate c JNull)).
      rewrite received_nulls. simpl. rewrite Hitem. simpl.
      fold (received (consumer_client.attempts t2)).
      rewrite !length_app, length_replicate. simpl.
      split; [lia|]. split; [lia|]. split; [nia|].
      intros Hlt. specialize (Hstop Hlt). rewrite last_app, last_cons, Hstop. done.
Qed.

(** X14 (the consumer always returns when it may retry): with
    [max_retries >= 1], whatever the replies, [continuous_consumption]
    returns; the count it ends with is the number of requests that
    returned an item and never exceeds [max_items]; it makes at most
    [max_retries] requests per item asked for; and it ends short of
    [max_items] only by giving up after [max_retries] failures in a row. *)
Theorem consumer_requests_bounded (max_items max_retries : Z) (fuel : nat) (w : World) :
  1 ≤ max_retries →
  (Z.to_nat max_items + Z.to_nat max_retries ≤ fuel)%nat →
  ∃ trace n w',
    consumer_client.continuous_consumption World exchange consumer_id fuel max_items
      max_retries w = Some (trace, n, w') ∧
    n = Z.of_nat (length (received (consumer_client.attempts trace))) ∧
    n ≤ Z.max 0 max_items ∧
    (length (consumer_client.attempts trace) ≤ Z.to_nat max_items * Z.to_nat max_retries)%nat ∧
    (n < max_items → last trace = Some consumer_client.Stopping).
Proof.
  intros Hpos Hfuel. unfold consumer_client.continuous_consumption.
  destruct (consumption_loop_bounded max_retries max_items Hpos (Z.to_nat max_items) fuel 0 w)
    as (trace & n & w' & Hrun & Hn & Hle & Hlen & Hstop); [f_equal; lia | done |].
  exists trace, n, w'. split_and!; [done|lia|done..].
Qed.

End ConsumerClient.

Lemma consumer_requests_bounded_witness :
  let exchange := λ (_ : gmap string json) (w : nat),
    (if Nat.even w
     then Some (JObj {[ "status" := JStr "success"; "item" := JStr "a" ]})
     else @None json, S w) in
  ∃ trace n w',
    consumer_client.continuous_consumption nat exchange "1" 4 2 2 1%nat
      = Some (trace, n, w') ∧
    n = Z.of_nat (length (received (consumer_client.attempts trace))) ∧
    n ≤ Z.max 0 2 ∧
    (length (consumer_client.attempts trace) ≤ Z.to_nat 2 * Z.to_nat 2)%nat ∧
    (n < 2 → last trace = Some consumer_client.Stopping).
Proof.
  intros exchange.
  apply (consumer_requests_bounded nat exchange "1" 2 2 4%nat 1%nat); simpl; lia.
Defined.

(** ** Client and server together *)

Section EndToEnd.
Import SharedBufferServer.
Variable str : json → string.
Variable loads : string → option json.
Variable World : Type.
Variable exchange : gmap string json → World → option json * World.

(** X15 (the producer client and the server agree): when the server
    decodes the bytes of a connection to the very request
    [Producer.produce] builds, and the client decodes the server's reply to
    the very response [handle_client] sent, then [produce] returns [True]
    exactly when the buffer was not full, in which case that item is now
    at the back of the server's queue; otherwise the server is
    unchanged. *)
Theorem produce_reaches_server (producer_id data : string) (item : json)
    (self self' : t) (response : gmap string json) (w w' : World) :
  data ≠ EmptyString →
  loads data
    = Some (JObj {[ "type" := JStr "producer"; "id" := JStr producer_id; "item" := item ]}) →
  handle_client str loads self data = Returns (self', Some response) →
  exchange {[ "type" := JStr "producer"; "id" := JStr producer_id; "item" := item ]} w
    = (Some (JObj response), w') →
  producer_client.produce World exchange producer_id item w
    = (negb (Queue.full (buffer self)), w') ∧
  (if Queue.full (buffer self) then self' = self
   else Queue.queue (buffer self') = Queue.queue (buffer self) ++ [item]).
Proof.
  intros Hdata Hloads Hserver Hclient.
  unfold producer_client.produce. rewrite Hclient.
  revert Hserver. unfold handle_client. destruct data as [|a data']; [done|].
  rewrite Hloads.
  assert (get {[ "type" := JStr "producer"; "id" := JStr producer_id; "item" := item ]} "type"
          = JStr "producer") as -> by (unfold get; by simplify_map_eq).
  assert (get {[ "type" := JStr "producer"; "id" := JStr producer_id; "item" := item ]} "item"
          = item) as Hitem by (unfold get; by simplify_map_eq).
  simpl is_type. cbn [String.eqb Ascii.eqb Bool.eqb andb]. 
  unfold handle_producer. rewrite Hitem.
  destruct (lock self); [done|].
  destruct (Queue.full (buffer self)) eqn:Hfull.
  - intros [= <- <-]. by split.
  - rewrite put_not_full by done. intros [= <- <-]. simpl.
    destruct (produced_response_lookup str item
                (Queue.qsize (Queue.mk (Queue.maxsize (buffer self))
                                       (Queue.queue (buffer self) ++ [item])))) as [-> _].
    by split.
Qed.

(** X16 (the consumer client and the server agree, except on a null
    item): under the same two conditions for a consume request, [consume]
    returns the item at the front of the server's queue, which the server
    has removed, and [None] when the queue was empty.  But when the item at
    the front is the null value, [consume] returns [None] although the
    server did remove it: the caller cannot tell this from a failure. *)
Theorem consume_reaches_server (consumer_id data : string)
    (self self' : t) (response : gmap string json) (w w' : World) :
  data ≠ EmptyString →
  loads data = Some (JObj {[ "type" := JStr "consumer"; "id" := JStr consumer_id ]}) →
  handle_client str loads self data = Returns (self', Some response) →
  exchange {[ "type" := JStr "consumer"; "id" := JStr consumer_id ]} w
    = (Some (JObj response), w') →
  consumer_client.consume World exchange consumer_id w
    = (default JNull (head (Queue.queue (buffer self))), w') ∧
  Queue.queue (buffer self') = tail (Queue.queue (buffer self)) ∧
  (∀ rest, Queue.queue (buffer self) = JNull :: rest →
           is_None (consumer_client.consume World exchange consumer_id w).1 = true ∧
           Queue.queue (buffer self') = rest).
Proof.
  intros Hdata Hloads Hserver Hclient.
  unfold consumer_client.consume. rewrite Hclient.
  revert Hserver. unfold handle_client. destruct data as [|a data']; [done|].
  rewrite Hloads.
  assert (get {[ "type" := JStr "consumer"; "id" := JStr consumer_id ]} "type"
          = JStr "consumer") as -> by (unfold get; by simplify_map_eq).
  simpl is_type. cbn [String.eqb Ascii.eqb Bool.eqb andb].
  unfold handle_consumer.
  destruct (lock self); [done|].
  destruct (Queue.queue (buffer self)) as [|item rest] eqn:Hq.
  - assert (Queue.empty (buffer self) = true) as -> by (by apply empty_true_iff).
    intros [= <- <-]. simpl. rewrite Hq. by split.
  - assert (Queue.empty (buffer self) = false) as ->.
    { apply not_true_iff_false. rewrite empty_true_iff, Hq. done. }
    unfold Queue.get. rewrite Hq. intros [= <- <-]. simpl.
    destruct (consumed_response_lookup str item
                (Queue.qsize (Queue.mk (Queue.maxsize (buffer self)) rest)))
      as (-> & -> & _).
    simpl. split; [done|]. split; [done|]. by intros ? [= -> ->].
Qed.

End EndToEnd.

Lemma produce_reaches_server_witness :
  let str := λ _ : json, "a" in
  let request : gmap string json :=
    {[ "type" := JStr "producer"; "id" := JStr "1"; "item" := JStr "a" ]} in
  let loads := λ _ : string, Some (JObj request) in
  let self := SharedBufferServer.__init__ "localhost" 5555 1 in
  let response := SharedBufferServer.produced_response str (JStr "a") 1 in
  let exchange := λ (_ : gmap string json) (w : unit), (Some (JObj response), w) in
  producer_client.produce unit exchange "1" (JStr "a") () = (true, ()).
Proof.
  intros str request loads self response exchange.
  apply (produce_reaches_server str loads unit exchange "1" "request" (JStr "a") self
           (SharedBufferServer.mk "localhost" 5555 1 (Queue.mk 1 [JStr "a"]) false 0 0)
           response () ());
    [done | reflexivity | vm_compute; reflexivity | reflexivity].
Defined.

(** A null item at the front of the queue: the server hands it over, the
    client reports [None]. *)
Lemma consume_reaches_server_witness :
  let str := λ _ : json, "None" in
  let request : gmap string json := {[ "type" := JStr "consumer"; "id" := JStr "1" ]} in
  let loads := λ _ : string, Some (JObj request) in
  let self := SharedBufferServer.mk "localhost" 5555 2 (Queue.mk 2 [JNull; JStr "b"])
                false 0 0 in
  let self' := SharedBufferServer.mk "localhost" 5555 2 (Queue.mk 2 [JStr "b"]) false 0 0 in
  let response := SharedBufferServer.consumed_response str JNull 1 in
  let exchange := λ (_ : gmap string json) (w : unit), (Some (JObj response), w) in
  is_None (consumer_client.consume unit exchange "1" ()).1 = true ∧
  Queue.queue (SharedBufferServer.buffer self') = [JStr "b"].
Proof.
  intros str request loads self self' response exchange.
  destruct (consume_reaches_server str loads unit exchange "1" "request" self self'
              response () ()) as (_ & _ & Hnull);
    [done | reflexivity | vm_compute; reflexivity | reflexivity |].
  apply (Hnull [JStr "b"]). reflexivity.
Defined.

(** ** The worker threads *)

Lemma insert_settled size buffer item :
  settled size buffer →
  ∃ buffer',
    SharedBuffer.insert buffer item
    = Returns (buffer', negb (SharedBuffer.get_size buffer =? size)) ∧
    settled size buffer'.
Proof.
  intros Hs.
  destruct (perform_settled size buffer (SharedBuffer.Insert item) Hs) as (b' & r & Hp & Hs').
  simpl in Hp. destruct (SharedBuffer.insert buffer item) as [[b ok]|] eqn:Hins; [|done].
  injection Hp as -> <-. exists b'. split; [|done]. do 2 f_equal.
  destruct Hs as (Hmax & Hmutex & He & Hc & Hsum & Hfull & Hcount).
  destruct ok.
  - apply insert_true in Hins as (Hne & _). symmetry. apply negb_true_iff, Z.eqb_neq. lia.
  - symmetry. apply negb_false_iff, Z.eqb_eq.
    destruct (decide (SharedBuffer.empty buffer = 0)) as [|Hne]; [lia|].
    destruct buffer as [q m e f np nc]. simpl in *. subst m.
    rewrite insert_ok in Hins; [done|done|done|].
    apply full_false_iff. unfold SharedBuffer.get_size in *. simpl in *. lia.
Qed.

Lemma remove_settled size buffer :
  settled size buffer →
  ∃ buffer',
    SharedBuffer.remove buffer
    = Returns (buffer', head (Queue.queue (SharedBuffer.buffer buffer))) ∧
    settled size buffer'.
Proof.
  intros Hs.
  destruct (perform_settled size buffer SharedBuffer.Remove Hs) as (b' & r & Hp & Hs').
  simpl in Hp. destruct (SharedBuffer.remove buffer) as [[b item]|] eqn:Hrem; [|done].
  injection Hp as -> <-. exists b'. split; [|done]. do 2 f_equal.
  destruct Hs as (Hmax & Hmutex & He & Hc & Hsum & Hfull & Hcount).
  destruct item as [item|].
  - apply remove_Some in Hrem as (rest & _ & _ & -> & _). done.
  - destruct (Queue.queue (SharedBuffer.buffer buffer)) as [|x rest] eqn:Hq; [done|].
    destruct buffer as [[maxsize q] m e f np nc]. simpl in *. subst m q.
    rewrite remove_ok in Hrem; [done| |done].
    unfold SharedBuffer.get_size, Queue.qsize in *. simpl in *. lia.
Qed.

Section WorkerThreads.
Variable World : Type.
Variable save : Z → World → bool * World.
Variable process : Z → World → bool * World.
Variable MAX_STUDENTS : Z.

Lemma saved_students_next n w :
  0 ≤ n → saved_students save (n + 1) w = (save (n + 1) (saved_students save n w)).2.
Proof.
  intros Hn. unfold saved_students.
  assert (seqZ 1 (n + 1) = seqZ 1 n ++ [n + 1]) as ->.
  { replace (n + 1) with (Z.of_nat (S (Z.to_nat n))) at 1 by lia.
    rewrite seqZ_S. do 2 f_equal; lia. }
  by rewrite foldl_app.
Qed.

Lemma producer_loop_alone size w0 :
  ∀ (m fuel : nat) (buffer : SharedBuffer.t) (student_num : Z) (w : World),
    m = Z.to_nat (MAX_STUDENTS + 1 - student_num) → (m ≤ fuel)%nat →
    1 ≤ student_num →
    settled size buffer →
    Queue.queue (SharedBuffer.buffer buffer) = seqZ 1 (student_num - 1) →
    SharedBuffer.produced_count buffer = student_num - 1 →
    w = saved_students save (student_num - 1) w0 →
    (∀ i, 1 ≤ i < student_num → (save i (saved_students save (i - 1) w0)).1 = true) →
    ∃ buffer' k w',
      Workers.producer_loop World save MAX_STUDENTS fuel true buffer student_num w
        = Some (Returns (buffer', k, w')) ∧
      settled size buffer' ∧
      Queue.queue (SharedBuffer.buffer buffer') = seqZ 1 (k - 1) ∧
      SharedBuffer.produced_count buffer' = k - 1 ∧
      student_num ≤ k ≤ Z.max student_num (MAX_STUDENTS + 1) ∧
      (∀ i, 1 ≤ i < k → (save i (saved_students save (i - 1) w0)).1 = true) ∧
      (k ≤ MAX_STUDENTS →
       w' = (save k (saved_students save (k - 1) w0)).2 ∧
       ((save k (saved_students save (k - 1) w0)).1 = false ∨ k - 1 = size)) ∧
      (MAX_STUDENTS < k → w' = saved_students save (k - 1) w0).
Proof.
  induction m as [|m IH]; intros fuel buffer student_num w Hm Hfuel Hpos Hs Hq Hp Hw Hok.
  - exists buffer, student_num, w.
    assert (Workers.producer_loop World save MAX_STUDENTS fuel true buffer student_num w
            = Some (Returns (buffer, student_num, w))) as ->.
    { destruct fuel; simpl; (destruct (Z.leb_spec student_num MAX_STUDENTS); [lia|done]). }
    split_and!; try done; lia.
  - destruct fuel as [|fuel]; [lia|]. simpl.
    destruct (Z.leb_spec student_num MAX_STUDENTS); [|lia].
    unfold Workers._generate_and_save_student.
    destruct (save student_num w) as [saved w1] eqn:Hsave. destruct saved.
    + destruct (insert_settled size buffer student_num Hs) as (b' & Hins & Hs').
      rewrite Hins.
      destruct (Z.eqb_spec (SharedBuffer.get_size buffer) size) as [Hfull|Hroom]; simpl.
      * exists b', student_num, w1. apply insert_false in Hins as ->.
        split_and!; try done; try lia.
        intros _. rewrite <- Hw, Hsave. split; [done|]. right.
        unfold SharedBuffer.get_size, Queue.qsize in Hfull.
        rewrite Hq, length_seqZ in Hfull. lia.
      * apply insert_true in Hins as (_ & _ & _ & Hb').
        destruct (IH fuel b' (student_num + 1) w1)
          as (b2 & k & w2 & -> & ? & ? & ? & ? & ? & ? & ?);
          [lia | lia | lia | done | | | | | ].
        { rewrite Hb'. simpl. rewrite Hq.
          replace (student_num + 1 - 1) with (Z.of_nat (S (Z.to_nat (student_num - 1)))) by lia.
          rewrite seqZ_S. do 2 f_equal; lia. }
        { rewrite Hb'. simpl. lia. }
        { replace (student_num + 1 - 1) with (student_num - 1 + 1) by lia.
          rewrite saved_students_next by lia.
          replace (student_num - 1 + 1) with student_num by lia.
          by rewrite <- Hw, Hsave. }
        { intros i Hi. destruct (decide (i = student_num)) as [->|Hne].
          - by rewrite <- Hw, Hsave.
          - apply Hok. lia. }
        exists b2, k, w2. split_and!; try done; lia.
    + exists buffer, student_num, w1. split_and!; try done; try lia.
      intros _. rewrite <- Hw, Hsave. split; [done|]. by left.
Qed.

(** X17 ([Producer.run] numbers the students without gaps): a producer
    running alone on a freshly built buffer returns (fuel for
    [MAX_STUDENTS] rounds is enough) and has put the student numbers 1, 2,
    ... up to some count [k - 1] into the buffer in that order, the count
    being [produced_count]; every one of them was saved, each in the world
    the saves before it had left.  It stops before [MAX_STUDENTS] only
    because, in the world this very run had reached, saving student [k]
    failed, or it succeeded and the buffer had no free slot left (the
    [insert] timed out, and the student's file stays written); otherwise
    the world at the end is the one left by the last save.  So when saving
    never fails the count is the smaller of the buffer size and
    [MAX_STUDENTS]. *)
Theorem producer_numbers_students (size : Z) (buffer : SharedBuffer.t) (fuel : nat)
    (w : World) :
  SharedBuffer.__init__ size = Some buffer →
  (Z.to_nat MAX_STUDENTS ≤ fuel)%nat →
  ∃ buffer' k w',
    Workers.producer_run World save MAX_STUDENTS fuel true buffer w
      = Some (Returns (buffer', k, w')) ∧
    Queue.queue (SharedBuffer.buffer buffer') = seqZ 1 (k - 1) ∧
    SharedBuffer.produced_count buffer' = k - 1 ∧
    1 ≤ k ≤ Z.max 1 (MAX_STUDENTS + 1) ∧
    (∀ i, 1 ≤ i < k → (save i (saved_students save (i - 1) w)).1 = true) ∧
    (k ≤ MAX_STUDENTS →
     w' = (save k (saved_students save (k - 1) w)).2 ∧
     ((save k (saved_students save (k - 1) w)).1 = false ∨ k - 1 = size)) ∧
    (MAX_STUDENTS < k → w' = saved_students save (k - 1) w) ∧
    ((∀ n w0, (save n w0).1 = true) → 0 ≤ MAX_STUDENTS → k - 1 = Z.min size MAX_STUDENTS).
Proof.
  intros Hinit Hfuel. pose proof (init_settled _ _ Hinit) as Hs.
  pose proof Hinit as [Hsize ->]%init_Some.
  destruct (producer_loop_alone size w (Z.to_nat MAX_STUDENTS) fuel _ 1 w
              ltac:(f_equal; lia) Hfuel ltac:(lia) Hs eq_refl eq_refl eq_refl ltac:(lia))
    as (b' & k & w' & Hrun & Hs' & Hq & Hp & Hk & Hsaved & Hstop & Hend).
  exists b', k, w'. split_and!; try done; try lia.
  intros Hsave Hmax.
  destruct Hs' as (_ & _ & He & _ & Hsum & _).
  assert (k - 1 ≤ size) as Hle.
  { unfold SharedBuffer.get_size, Queue.qsize in Hsum. rewrite Hq, length_seqZ in Hsum. lia. }
  destruct (Z_le_gt_dec k MAX_STUDENTS) as [Hearly|Hdone]; [|lia].
  destruct (Hstop Hearly) as [_ [Hfail|Hfull]]; [|lia].
  by rewrite Hsave in Hfail.
Qed.

Lemma consumer_run_alone size :
  ∀ (l : list Z) (fuel : nat) (buffer : SharedBuffer.t) (w : World),
    Queue.queue (SharedBuffer.buffer buffer) = l → (length l < fuel)%nat →
    settled size buffer →
    ∃ buffer' processed w',
      Workers.consumer_run World process MAX_STUDENTS fuel true buffer w
        = Some (Returns (buffer', processed, w')) ∧
      settled size buffer' ∧
      l = processed ++ Queue.queue (SharedBuffer.buffer buffer') ∧
      SharedBuffer.consumed_count buffer'
        = SharedBuffer.consumed_count buffer + Z.of_nat (length processed) ∧
      SharedBuffer.produced_count buffer' = SharedBuffer.produced_count buffer ∧
      (Queue.queue (SharedBuffer.buffer buffer') = [] ∨
       MAX_STUDENTS ≤ SharedBuffer.consumed_count buffer') ∧
      Z.of_nat (length processed)
        ≤ Z.max 1 (MAX_STUDENTS - SharedBuffer.consumed_count buffer).
Proof.
  induction l as [|x l IH]; intros fuel buffer w Hq Hfuel Hs;
    (destruct fuel as [|fuel]; [simpl in Hfuel; lia|]); simpl;
    destruct (remove_settled size buffer Hs) as (b' & Hrem & Hs');
    rewrite Hq in Hrem; simpl in Hrem; rewrite Hrem; simpl.
  - apply remove_None in Hrem as ->. exists buffer, [], w.
    split_and!; simpl; try done; try lia. by left.
  - apply remove_Some in Hrem as (rest & _ & _ & Hrest & Hb').
    rewrite Hq in Hrest. injection Hrest as <-.
    destruct (process x w) as [ok w1].
    assert (Queue.queue (SharedBuffer.buffer b') = l) as Hq' by (by rewrite Hb').
    assert (SharedBuffer.consumed_count b' = SharedBuffer.consumed_count buffer + 1) as Hc'
      by (by rewrite Hb').
    assert (SharedBuffer.produced_count b' = SharedBuffer.produced_count buffer) as Hp'
      by (by rewrite Hb').
    destruct (Z.leb_spec MAX_STUDENTS (SharedBuffer.consumed_count b')).
    + exists b', [x], w1.
      split_and!; try done; simpl; try lia; first [by rewrite Hq' | by right].
    + destruct (IH fuel b' w1 Hq') as (b2 & processed & w2 & -> & ? & Hl & ? & ? & ? & ?);
        [simpl in Hfuel; lia | done |].
      exists b2, (x :: processed), w2. split_and!; try done; simpl; try lia.
      by rewrite Hl at 1.
Qed.

(** X18 ([Consumer.run] drains in order and stops on the count): a
    consumer running alone on a buffer left by any sequence of calls
    returns, having handed to [_process_student] a front part of the queue
    in queue order and left the rest; it stops only when the buffer is
    empty (its [remove] timed out) or [consumed_count] has reached
    [MAX_STUDENTS], whether or not processing a student succeeded; and it
    always takes at least one item from a buffer that is not empty, even
    when [consumed_count] is already at [MAX_STUDENTS]. *)
Theorem consumer_drains_in_order (size : Z) (fresh buffer : SharedBuffer.t)
    (calls : list SharedBuffer.call) (results : list SharedBuffer.result)
    (fuel : nat) (w : World) :
  SharedBuffer.__init__ size = Some fresh →
  SharedBuffer.run fresh calls = Returns (buffer, results) →
  (length (Queue.queue (SharedBuffer.buffer buffer)) < fuel)%nat →
  ∃ buffer' processed w',
    Workers.consumer_run World process MAX_STUDENTS fuel true buffer w
      = Some (Returns (buffer', processed, w')) ∧
    Queue.queue (SharedBuffer.buffer buffer)
      = processed ++ Queue.queue (SharedBuffer.buffer buffer') ∧
    SharedBuffer.consumed_count buffer'
      = SharedBuffer.consumed_count buffer + Z.of_nat (length processed) ∧
    (Queue.queue (SharedBuffer.buffer buffer') = [] ∨
     MAX_STUDENTS ≤ SharedBuffer.consumed_count buffer') ∧
    Z.of_nat (length processed) ≤ Z.max 1 (MAX_STUDENTS - SharedBuffer.consumed_count buffer) ∧
    (Queue.queue (SharedBuffer.buffer buffer) ≠ [] → processed ≠ []).
Proof.
  intros Hinit Hrun Hfuel.
  destruct (run_settled size fresh calls (init_settled _ _ Hinit)) as (b & rs & Hrun' & Hs).
  rewrite Hrun in Hrun'. injection Hrun' as <- <-.
  destruct (consumer_run_alone size _ fuel buffer w eq_refl Hfuel Hs)
    as (b' & processed & w' & Hc & _ & Hl & Hcount & _ & Hstop & Hlen).
  exists b', processed, w'. split_and!; try done.
  intros Hne ->. simpl in *.
  destruct Hstop as [Hempty|Hmax]; [by rewrite Hl, Hempty in Hne|].
  (* the count test follows a removal, so an empty [processed] means an empty queue *)
  destruct (Queue.queue (SharedBuffer.buffer buffer)) as [|x l] eqn:Hq; [done|].
  destruct fuel as [|fuel]; [simpl in Hfuel; lia|]. simpl in Hc.
  destruct (remove_settled size buffer Hs) as (b1 & Hrem & _). rewrite Hrem, Hq in Hc.
  simpl in Hc. destruct (process x w) as [ok w1].
  destruct (MAX_STUDENTS <=? SharedBuffer.consumed_count b1); [done|].
  destruct (Workers.consumer_run _ _ _ _ _ _ _) as [[[[??]?]|]|]; done.
Qed.

(** X19 (producer, then consumer): when a producer whose saving never
    fails has run to its end on a freshly built buffer with room for all
    [MAX_STUDENTS] students, a consumer started afterwards processes
    exactly the students 1 to [MAX_STUDENTS] in that order and leaves the
    buffer empty with both counters at [MAX_STUDENTS]. *)
Theorem producer_then_consumer (size : Z) (buffer : SharedBuffer.t) (fuel : nat)
    (w : World) :
  SharedBuffer.__init__ size = Some buffer →
  1 ≤ MAX_STUDENTS ≤ size →
  (Z.to_nat MAX_STUDENTS < fuel)%nat →
  (∀ n w0, (save n w0).1 = true) →
  ∃ buffer1 k w1 buffer2 w2,
    Workers.producer_run World save MAX_STUDENTS fuel true buffer w
      = Some (Returns (buffer1, k, w1)) ∧
    Workers.consumer_run World process MAX_STUDENTS fuel true buffer1 w1
      = Some (Returns (buffer2, seqZ 1 MAX_STUDENTS, w2)) ∧
    Queue.queue (SharedBuffer.buffer buffer2) = [] ∧
    SharedBuffer.produced_count buffer2 = MAX_STUDENTS ∧
    SharedBuffer.consumed_count buffer2 = MAX_STUDENTS.
Proof.
  intros Hinit Hmax Hfuel Hsave. pose proof (init_settled _ _ Hinit) as Hs.
  pose proof Hinit as [Hsize ->]%init_Some.
  destruct (producer_loop_alone size w (Z.to_nat MAX_STUDENTS) fuel _ 1 w
              ltac:(f_equal; lia) ltac:(lia) ltac:(lia) Hs eq_refl eq_refl eq_refl ltac:(lia))
    as (b1 & k & w1 & Hprod & Hs1 & Hq1 & Hp1 & Hk & _ & Hstop & _).
  assert (k = MAX_STUDENTS + 1) as ->.
  { destruct (Z_le_gt_dec k MAX_STUDENTS) as [Hearly|Hdone]; [|lia].
    destruct (Hstop Hearly) as [_ [Hfail|Hfull]]; [|lia]. by rewrite Hsave in Hfail. }
  replace (MAX_STUDENTS + 1 - 1) with MAX_STUDENTS in * by lia.
  assert (SharedBuffer.consumed_count b1 = 0) as Hc1.
  { destruct Hs1 as (_ & _ & _ & Hc & _ & _ & Hcount).
    unfold SharedBuffer.get_size, Queue.qsize in Hcount.
    rewrite Hq1, length_seqZ in Hcount. lia. }
  destruct (consumer_run_alone size _ fuel b1 w1 eq_refl) as
    (b2 & processed & w2 & Hcons & Hs2 & Hl & Hcount & Hp2 & Hend & Hlen);
    [rewrite Hq1, length_seqZ; lia | done |].
  assert (Z.of_nat (length processed) + Z.of_nat (length (Queue.queue (SharedBuffer.buffer b2)))
          = MAX_STUDENTS) as Hsplit.
  { apply (f_equal length) in Hl. rewrite Hq1, length_seqZ, length_app in Hl. lia. }
  assert (Queue.queue (SharedBuffer.buffer b2) = []) as Hempty.
  { destruct Hend as [|Hreached]; [done|].
    apply length_zero_iff_nil. lia. }
  rewrite Hempty, app_nil_r in Hl.
  exists b1, (MAX_STUDENTS + 1), w1, b2, w2.
  split_and!; [done| |done|lia|].
  - rewrite Hcons, <- Hl, Hq1. done.
  - rewrite Hempty in Hsplit. simpl in Hsplit. lia.
Qed.

End WorkerThreads.

(** Saving works for the first two students and fails for the third: the
    producer stops at student 3 with students 1 and 2 in the buffer. *)
Lemma producer_numbers_students_witness :
  let save := λ (n : Z) (w : list Z), (n <? 3, n :: w) in
  ∃ buffer' w',
    Workers.producer_run (list Z) save Workers.MAX_STUDENTS 10 true
      (SharedBuffer.mk (Queue.mk Workers.BUFFER_SIZE []) 1 Workers.BUFFER_SIZE 0 0 0) []
      = Some (Returns (buffer', 3, w')) ∧
    Queue.queue (SharedBuffer.buffer buffer') = [1; 2] ∧
    w' = [3; 2; 1] ∧
    (save 3 [2; 1]).1 = false.
Proof.
  intros save.
  destruct (producer_numbers_students (list Z) save Workers.MAX_STUDENTS Workers.BUFFER_SIZE
              (SharedBuffer.mk (Queue.mk Workers.BUFFER_SIZE []) 1 Workers.BUFFER_SIZE 0 0 0)
              10%nat [])
    as (buffer' & k & w' & Hrun & Hq & _ & _ & _ & Hstop & _);
    [reflexivity | vm_compute; lia |].
  assert (k = 3) as ->.
  { vm_compute in Hrun. by injection Hrun as _ <- _. }
  exists buffer', w'. split; [exact Hrun|]. split; [exact Hq|].
  destruct Hstop as [Hw' _]; [vm_compute; congruence|].
  split; [exact Hw' | reflexivity].
Defined.

Lemma consumer_drains_in_order_witness :
  let process := λ (n : Z) (w : unit), (false, w) in
  let buffer := SharedBuffer.mk (Queue.mk 3 [1; 2]) 1 1 2 2 0 in
  ∃ buffer' processed w',
    Workers.consumer_run unit process 1 5 true buffer ()
      = Some (Returns (buffer', processed, w')) ∧
    [1; 2] = processed ++ Queue.queue (SharedBuffer.buffer buffer') ∧
    SharedBuffer.consumed_count buffer' = 0 + Z.of_nat (length processed) ∧
    (Queue.queue (SharedBuffer.buffer buffer') = [] ∨
     1 ≤ SharedBuffer.consumed_count buffer') ∧
    Z.of_nat (length processed) ≤ Z.max 1 (1 - 0) ∧
    ([1; 2] ≠ [] → processed ≠ []).
Proof.
  intros process buffer.
  apply (consumer_drains_in_order unit process 1 3
           (SharedBuffer.mk (Queue.mk 3 []) 1 3 0 0 0) buffer
           [SharedBuffer.Insert 1; SharedBuffer.Insert 2]
           [SharedBuffer.Inserted true; SharedBuffer.Inserted true] 5%nat ());
    [reflexivity | reflexivity | simpl; lia].
Defined.

(** The sizes of [CONFIG]: ten students through a buffer of ten slots. *)
Lemma producer_then_consumer_witness :
  let save := λ (n : Z) (w : unit), (true, w) in
  let process := λ (n : Z) (w : unit), (true, w) in
  ∃ buffer1 k w1 buffer2 w2,
    Workers.producer_run unit save Workers.MAX_STUDENTS 11 true
      (SharedBuffer.mk (Queue.mk Workers.BUFFER_SIZE []) 1 Workers.BUFFER_SIZE 0 0 0) ()
      = Some (Returns (buffer1, k, w1)) ∧
    Workers.consumer_run unit process Workers.MAX_STUDENTS 11 true buffer1 w1
      = Some (Returns (buffer2, seqZ 1 Workers.MAX_STUDENTS, w2)) ∧
    Queue.queue (SharedBuffer.buffer buffer2) = [] ∧
    SharedBuffer.produced_count buffer2 = Workers.MAX_STUDENTS ∧
    SharedBuffer.consumed_count buffer2 = Workers.MAX_STUDENTS.
Proof.
  intros save process.
  apply (producer_then_consumer unit save process Workers.MAX_STUDENTS Workers.BUFFER_SIZE);
    [reflexivity | vm_compute; split; congruence | vm_compute; lia | reflexivity].
Defined.
